(** * RingMPSC: a ring-decomposed multi-producer / single-consumer channel

    Shallow embedding of [src/c_impl/ringmpsc.h] and the properties of its
    reserve / commit / consume protocol.

    Conventions of the embedding.
    - [uint64_t] and [size_t] (LP64) are integers in [Z] reduced modulo
      [2^64] after every arithmetic operation ([wrap64]).
    - The C11 atomics are read and written as plain fields: the model is
      sequential, every API call is one atomic step.
    - A pointer [&r->buffer[idx]] is the slot index [idx]; [NULL] is [None].
    - A pointer [&ch->rings[i]] is the ring index [i].
    - [RING_BITS] and [MAX_PRODUCERS] are compile-time macros of the header;
      they are parameters of every definition that depends on them. *)

From Stdlib Require Import ZArith Lia Znumtheory.
From stdpp Require Import base numbers option list.

Local Open Scope Z_scope.

(** ** Machine integers *)

Definition wrap64 (x : Z) : Z := x mod 2 ^ 64.

Definition u64 (x : Z) : Prop := 0 <= x < 2 ^ 64.

(** Default values of the configuration macros. *)
Definition RING_BITS_default : Z := 16.
Definition MAX_PRODUCERS_default : Z := 16.

(** ** Data model *)

(** [struct ring]. *)
Record ring_t := mk_ring {
  tail : Z;
  cached_head : Z;
  head : Z;
  cached_tail : Z;
  active : bool;
  closed : bool;
  buffer : list Z
}.

(** [struct channel]; the channel flag [closed] is [ch_closed] here, the
    name [closed] being the ring's field. *)
Record channel_t := mk_channel {
  rings : list ring_t;
  producer_count : Z;
  ch_closed : bool
}.

(** [struct producer]: [p_ring] is the index [i] of the ring [&ch->rings[i]]
    the handle points to. *)
Record producer_t := mk_producer {
  p_ring : Z;
  p_id : Z
}.

(** [consume_handler_t]: the callback receives the slot pointer (an index),
    may read the item behind it, and updates what [ctx] points to. *)
Definition consume_handler_t (C : Type) : Type := Z -> Z -> C -> C.

(** Field assignments. *)
Definition set_tail (r : ring_t) (v : Z) : ring_t :=
  mk_ring v (cached_head r) (head r) (cached_tail r) (active r) (closed r) (buffer r).
Definition set_cached_head (r : ring_t) (v : Z) : ring_t :=
  mk_ring (tail r) v (head r) (cached_tail r) (active r) (closed r) (buffer r).
Definition set_head (r : ring_t) (v : Z) : ring_t :=
  mk_ring (tail r) (cached_head r) v (cached_tail r) (active r) (closed r) (buffer r).
Definition set_active (r : ring_t) (v : bool) : ring_t :=
  mk_ring (tail r) (cached_head r) (head r) (cached_tail r) v (closed r) (buffer r).
Definition set_closed (r : ring_t) (v : bool) : ring_t :=
  mk_ring (tail r) (cached_head r) (head r) (cached_tail r) (active r) v (buffer r).
Definition set_buffer (r : ring_t) (b : list Z) : ring_t :=
  mk_ring (tail r) (cached_head r) (head r) (cached_tail r) (active r) (closed r) b.

Definition set_rings (ch : channel_t) (rs : list ring_t) : channel_t :=
  mk_channel rs (producer_count ch) (ch_closed ch).
Definition set_producer_count (ch : channel_t) (v : Z) : channel_t :=
  mk_channel (rings ch) v (ch_closed ch).
Definition set_ch_closed (ch : channel_t) (v : bool) : channel_t :=
  mk_channel (rings ch) (producer_count ch) v.

(** [buffer[idx]] read and [buffer[idx] = v] write.  Every index the header
    computes is masked with [RING_MASK], hence in range; out of range the
    C code would be undefined, the model reads 0 and writes nothing. *)
Definition load (b : list Z) (idx : Z) : Z := default 0 (b !! Z.to_nat idx).
Definition store (b : list Z) (idx : Z) (v : Z) : list Z := <[Z.to_nat idx := v]> b.

Section Ring.

Variable RING_BITS : Z.

Definition RING_CAPACITY : Z := wrap64 (Z.shiftl 1 RING_BITS).
Definition RING_MASK : Z := wrap64 (RING_CAPACITY - 1).

(** *** Ring API *)

(** [memset(r, 0, sizeof( *r))]. *)
Definition ring_init : ring_t :=
  mk_ring 0 0 0 0 false false (replicate (Z.to_nat RING_CAPACITY) 0).

Definition ring_len (r : ring_t) : Z :=
  let t := tail r in
  let h := head r in
  wrap64 (t - h).

Definition ring_is_empty (r : ring_t) : bool := ring_len r =? 0.

Definition ring_is_full (r : ring_t) : bool := ring_len r >=? RING_CAPACITY.

Definition ring_is_closed (r : ring_t) : bool := closed r.

(** Returns the reserved slot (or [None] for [NULL]) and the ring, whose
    [cached_head] the slow path refreshes. *)
Definition ring_reserve (r : ring_t) : option Z * ring_t :=
  let tail := tail r in
  let space := wrap64 (RING_CAPACITY - wrap64 (tail - cached_head r)) in
  if space >=? 1 then
    let idx := Z.land tail RING_MASK in
    (Some idx, r)
  else
    let r := set_cached_head r (head r) in
    let space := wrap64 (RING_CAPACITY - wrap64 (tail - cached_head r)) in
    if space <? 1 then (None, r)
    else
      let idx := Z.land tail RING_MASK in
      (Some idx, r).

(** [out_contiguous] is [None] for a null pointer and [Some c] for a pointer
    to a cell holding [c]; the second component of the result is that cell
    after the call.  [reserved] is the code that follows the
    [if (space < n)] block, reached from both of its exits. *)
Definition ring_reserve_n (r : ring_t) (n : Z) (out_contiguous : option Z)
  : option Z * option Z * ring_t :=
  if (n =? 0) || (n >? RING_CAPACITY) then (None, out_contiguous, r)
  else
    let tail := tail r in
    let reserved (r : ring_t) :=
      let idx := Z.land tail RING_MASK in
      let contiguous := wrap64 (RING_CAPACITY - idx) in
      let contiguous := if contiguous >? n then n else contiguous in
      let out_contiguous :=
        match out_contiguous with
        | Some _ => Some contiguous
        | None => None
        end in
      (Some idx, out_contiguous, r) in
    let space := wrap64 (RING_CAPACITY - wrap64 (tail - cached_head r)) in
    if space <? n then
      let r := set_cached_head r (head r) in
      let space := wrap64 (RING_CAPACITY - wrap64 (tail - cached_head r)) in
      if space <? n then (None, out_contiguous, r)
      else reserved r
    else reserved r.

Definition ring_commit (r : ring_t) (n : Z) : ring_t :=
  let tail := tail r in
  set_tail r (wrap64 (tail + n)).

(** The loop [while (pos != tail) { handler(&r->buffer[idx], ctx); pos++;
    count++; }].  [fuel] bounds the number of iterations; running out of it
    before the loop condition fails is [None]. *)
Fixpoint consume_batch_loop {C : Type} (fuel : nat) (b : list Z)
    (handler : consume_handler_t C) (tail pos count : Z) (ctx : C)
  : option (Z * Z * C) :=
  if negb (pos =? tail) then
    match fuel with
    | O => None
    | S fuel =>
        let idx := Z.land pos RING_MASK in
        let ctx := handler idx (load b idx) ctx in
        consume_batch_loop fuel b handler tail (wrap64 (pos + 1)) (wrap64 (count + 1)) ctx
    end
  else Some (pos, count, ctx).

(** Result: the returned count, the handler's context and the ring.  The
    loop is given [avail] iterations of fuel, its exact trip count
    (see [consume_batch_loop_fuel]). *)
Definition ring_consume_batch {C : Type} (r : ring_t)
    (handler : consume_handler_t C) (ctx : C) : option (Z * C * ring_t) :=
  let head := head r in
  let tail := tail r in
  let avail := wrap64 (tail - head) in
  if avail =? 0 then Some (0, ctx, r)
  else
    '(_, count, ctx) ← consume_batch_loop (Z.to_nat avail) (buffer r) handler tail head 0 ctx;
    Some (count, ctx, set_head r tail).

(** The loop [while (count < to_consume) { ...; pos++; count++; }]. *)
Fixpoint consume_up_to_loop {C : Type} (fuel : nat) (b : list Z)
    (handler : consume_handler_t C) (to_consume pos count : Z) (ctx : C)
  : option (Z * Z * C) :=
  if count <? to_consume then
    match fuel with
    | O => None
    | S fuel =>
        let idx := Z.land pos RING_MASK in
        let ctx := handler idx (load b idx) ctx in
        consume_up_to_loop fuel b handler to_consume (wrap64 (pos + 1)) (wrap64 (count + 1)) ctx
    end
  else Some (pos, count, ctx).

Definition ring_consume_up_to {C : Type} (r : ring_t) (max_items : Z)
    (handler : consume_handler_t C) (ctx : C) : option (Z * C * ring_t) :=
  if max_items =? 0 then Some (0, ctx, r)
  else
    let head := head r in
    let tail := tail r in
    let avail := wrap64 (tail - head) in
    if avail =? 0 then Some (0, ctx, r)
    else
      let to_consume := if avail <? max_items then avail else max_items in
      '(_, count, ctx) ← consume_up_to_loop (Z.to_nat to_consume) (buffer r) handler to_consume head 0 ctx;
      Some (count, ctx, set_head r (wrap64 (head + count))).

Definition ring_close (r : ring_t) : ring_t := set_closed r true.

(** *** Producer convenience functions, on the ring [p->ring] points to *)

Definition producer_reserve (r : ring_t) : option Z * ring_t := ring_reserve r.

Definition producer_commit (r : ring_t) (n : Z) : ring_t := ring_commit r n.

Definition producer_send (r : ring_t) (value : Z) : bool * ring_t :=
  match ring_reserve r with
  | (None, r) => (false, r)
  | (Some slot, r) =>
      let r := set_buffer r (store (buffer r) slot value) in
      let r := ring_commit r 1 in
      (true, r)
  end.

End Ring.

Arguments consume_batch_loop RING_BITS {C} fuel b handler tail pos count ctx.
Arguments consume_up_to_loop RING_BITS {C} fuel b handler to_consume pos count ctx.
Arguments ring_consume_batch RING_BITS {C} r handler ctx.
Arguments ring_consume_up_to RING_BITS {C} r max_items handler ctx.

Section Channel.

Variable RING_BITS : Z.
Variable MAX_PRODUCERS : Z.

(** *** Channel API *)

(** [memset] of the channel, then [ring_init] on each of the
    [MAX_PRODUCERS] rings. *)
Definition channel_init : channel_t :=
  mk_channel (replicate (Z.to_nat MAX_PRODUCERS) (ring_init RING_BITS)) 0 false.

(** Result: the returned [int], the channel, and the handle [*out]
    (written on success only). *)
Definition channel_register (ch : channel_t) (out : producer_t)
  : Z * channel_t * producer_t :=
  if ch_closed ch then (-1, ch, out)
  else
    let id := producer_count ch in
    let ch := set_producer_count ch (wrap64 (producer_count ch + 1)) in
    if id >=? MAX_PRODUCERS then
      let ch := set_producer_count ch (wrap64 (producer_count ch - 1)) in
      (-2, ch, out)
    else
      let ch := set_rings ch (alter (fun r => set_active r true) (Z.to_nat id) (rings ch)) in
      (0, ch, mk_producer id id).

(** The loop [for (i = 0; i < count; i++) ring_close(&ch->rings[i])] is a
    fold over [0, count). *)
Definition channel_close (ch : channel_t) : channel_t :=
  let ch := set_ch_closed ch true in
  let count := producer_count ch in
  foldl (fun ch i => set_rings ch (alter ring_close (Z.to_nat i) (rings ch)))
        ch (seqZ 0 count).

Definition channel_is_closed (ch : channel_t) : bool := ch_closed ch.

Definition channel_producer_count (ch : channel_t) : Z := producer_count ch.

(** A producer function [f] applied through the handle: it runs on the ring
    [p->ring] points to and its effect is stored back in the channel. *)
Definition through_handle {A : Type} (ch : channel_t) (p : producer_t)
    (f : ring_t -> A * ring_t) : option (A * channel_t) :=
  r ← rings ch !! Z.to_nat (p_ring p);
  let '(a, r) := f r in
  Some (a, set_rings ch (<[Z.to_nat (p_ring p) := r]> (rings ch))).

End Channel.

(** ** Sequential runs of one ring *)

(** The handler that records its invocations: the slot it was handed and
    the item it read there. *)
Definition record_call : consume_handler_t (list (Z * Z)) :=
  fun idx item calls => calls ++ [(idx, item)].

(** *** Producer sends interleaved with consumer batches *)

Inductive action :=
  | Send (value : Z)
  | ConsumeBatch
  | Close.

(** The ring, the values whose [producer_send] returned [true] (oldest
    first), and the consumer's handler context. *)
Record sim (C : Type) := mk_sim {
  sim_ring : ring_t;
  sim_sent : list Z;
  sim_ctx : C
}.
Arguments mk_sim {C}.
Arguments sim_ring {C}.
Arguments sim_sent {C}.
Arguments sim_ctx {C}.

Definition run_action {C : Type} (RING_BITS : Z) (handler : consume_handler_t C)
    (a : action) (s : sim C) : option (sim C) :=
  match a with
  | Send value =>
      let '(ok, r) := producer_send RING_BITS (sim_ring s) value in
      Some (mk_sim r (if ok then sim_sent s ++ [value] else sim_sent s) (sim_ctx s))
  | ConsumeBatch =>
      '(_, ctx, r) ← ring_consume_batch RING_BITS (sim_ring s) handler (sim_ctx s);
      Some (mk_sim r (sim_sent s) ctx)
  | Close => Some (mk_sim (ring_close (sim_ring s)) (sim_sent s) (sim_ctx s))
  end.

Fixpoint run_actions {C : Type} (RING_BITS : Z) (handler : consume_handler_t C)
    (tr : list action) (s : sim C) : option (sim C) :=
  match tr with
  | [] => Some s
  | a :: tr => s ← run_action RING_BITS handler a s; run_actions RING_BITS handler tr s
  end.

(** *** The ring API under the reserve / commit pairing *)

Inductive ring_op :=
  | OpReserve
  | OpReserveN (n : Z)
  | OpCommit (n : Z)
  | OpConsumeBatch
  | OpConsumeUpTo (max_items : Z)
  | OpClose.

(** The ring, the slots granted by the last successful reserve and not yet
    committed, and the consumer's handler context. *)
Record pstate (C : Type) := mk_pstate {
  ps_ring : ring_t;
  ps_granted : Z;
  ps_ctx : C
}.
Arguments mk_pstate {C}.
Arguments ps_ring {C}.
Arguments ps_granted {C}.
Arguments ps_ctx {C}.

(** One API call.  [OpCommit n] outside the pairing (more slots than the
    preceding successful reserve granted) is rejected with [None]. *)
Definition exec_op {C : Type} (RING_BITS : Z) (handler : consume_handler_t C)
    (o : ring_op) (s : pstate C) : option (pstate C) :=
  match o with
  | OpReserve =>
      match ring_reserve RING_BITS (ps_ring s) with
      | (Some _, r) => Some (mk_pstate r 1 (ps_ctx s))
      | (None, r) => Some (mk_pstate r (ps_granted s) (ps_ctx s))
      end
  | OpReserveN n =>
      match ring_reserve_n RING_BITS (ps_ring s) n (Some 0) with
      | (Some _, Some contiguous, r) => Some (mk_pstate r contiguous (ps_ctx s))
      | (_, _, r) => Some (mk_pstate r (ps_granted s) (ps_ctx s))
      end
  | OpCommit n =>
      if (0 <=? n) && (n <=? ps_granted s)
      then Some (mk_pstate (ring_commit (ps_ring s) n) (ps_granted s - n) (ps_ctx s))
      else None
  | OpConsumeBatch =>
      '(_, ctx, r) ← ring_consume_batch RING_BITS (ps_ring s) handler (ps_ctx s);
      Some (mk_pstate r (ps_granted s) ctx)
  | OpConsumeUpTo max_items =>
      '(_, ctx, r) ← ring_consume_up_to RING_BITS (ps_ring s) max_items handler (ps_ctx s);
      Some (mk_pstate r (ps_granted s) ctx)
  | OpClose => Some (mk_pstate (ring_close (ps_ring s)) (ps_granted s) (ps_ctx s))
  end.

Fixpoint exec_ops {C : Type} (RING_BITS : Z) (handler : consume_handler_t C)
    (tr : list ring_op) (s : pstate C) : option (pstate C) :=
  match tr with
  | [] => Some s
  | o :: tr => s ← exec_op RING_BITS handler o s; exec_ops RING_BITS handler tr s
  end.

(** Number of slots committed by a run. *)
Fixpoint committed (tr : list ring_op) : Z :=
  match tr with
  | [] => 0
  | OpCommit n :: tr => n + committed tr
  | _ :: tr => committed tr
  end.

(** ** Invariants *)

(** The fields hold 64-bit values and the buffer has its declared size. *)
Definition ring_wf (RING_BITS : Z) (r : ring_t) : Prop :=
  u64 (tail r) /\ u64 (head r) /\ u64 (cached_head r) /\
  length (buffer r) = Z.to_nat (RING_CAPACITY RING_BITS).

(** The logical invariants as the indices are read, without wrap-around. *)
Definition ring_inv (RING_BITS : Z) (r : ring_t) : Prop :=
  head r <= tail r /\
  tail r - head r <= RING_CAPACITY RING_BITS /\
  cached_head r <= head r.

(** The same invariants on distances modulo [2^64]: the occupied slots and
    the slots freed since [cached_head] was read fit in the ring together. *)
Definition ring_inv_mod (RING_BITS : Z) (r : ring_t) : Prop :=
  wrap64 (tail r - head r) + wrap64 (head r - cached_head r)
    <= RING_CAPACITY RING_BITS.

(** Two ring states that differ at most in the [closed] flag. *)
Definition closed_equiv (r1 r2 : ring_t) : Prop :=
  tail r1 = tail r2 /\ cached_head r1 = cached_head r2 /\
  head r1 = head r2 /\ cached_tail r1 = cached_tail r2 /\
  active r1 = active r2 /\ buffer r1 = buffer r2.

(** The slot and the stored value of each of the [n] indices from [pos]
    on, in increasing order of the index. *)
Definition slots_from (RING_BITS : Z) (b : list Z) (pos n : Z) : list (Z * Z) :=
  (fun k => let idx := Z.land (wrap64 (pos + k)) (RING_MASK RING_BITS) in
            (idx, load b idx))
    <$> seqZ 0 n.

(** The items in flight, oldest first: those of the indices in
    [head, tail). *)
Definition in_flight (RING_BITS : Z) (r : ring_t) : list (Z * Z) :=
  slots_from RING_BITS (buffer r) (head r) (wrap64 (tail r - head r)).

(** A handler applied to a sequence of (slot, item) invocations. *)
Definition invoke {C : Type} (handler : consume_handler_t C) (ctx : C)
    (calls : list (Z * Z)) : C :=
  foldl (fun ctx call => handler call.1 call.2 ctx) ctx calls.

(** [T], [H] and [K] are the indices [tail], [head] and [cached_head] as
    counted without wrap-around (slots ever committed, slots ever consumed,
    and the consumed count the producer last read); the fields hold them
    modulo [2^64].  [granted] is the number of reserved, uncommitted slots. *)
Definition unwrapped (RING_BITS : Z) (r : ring_t) (granted T H K : Z) : Prop :=
  tail r = wrap64 T /\ head r = wrap64 H /\ cached_head r = wrap64 K /\
  0 <= K <= H /\ H <= T /\
  T - K <= RING_CAPACITY RING_BITS /\
  T - K + granted <= RING_CAPACITY RING_BITS.

(** ** A run that wraps the 64-bit indices *)

(** The handler of [bench.c]. *)
Definition noop_handler : consume_handler_t unit := fun _ _ ctx => ctx.

(** Fill the whole ring, publish it, drain it. *)
Definition full_cycle (RING_BITS : Z) : list ring_op :=
  [OpReserveN (RING_CAPACITY RING_BITS); OpCommit (RING_CAPACITY RING_BITS);
   OpConsumeBatch].

Definition full_cycles (RING_BITS : Z) (k : nat) : list ring_op :=
  concat (replicate k (full_cycle RING_BITS)).

(** [2^64 / RING_CAPACITY - 1] full cycles, then one more reserve of the
    whole ring: committing it brings the committed slots to [2^64]. *)
Definition wrapping_run (RING_BITS : Z) : list ring_op :=
  full_cycles RING_BITS (Z.to_nat (2 ^ (64 - RING_BITS) - 1))
    ++ [OpReserveN (RING_CAPACITY RING_BITS)].

(** ** Sample states, with [RING_BITS = 3] (capacity 8) *)

(** Six items in flight at indices 3..8, the last one past the wrap; the
    producer last saw [head = 2]. *)
Definition sample_ring : ring_t :=
  mk_ring 9 2 3 0 true false [18; 11; 12; 13; 14; 15; 16; 17].

(** A full ring whose [cached_head] lags more than a whole ring behind
    [tail]. *)
Definition stale_cache_ring : ring_t :=
  mk_ring 18 0 10 0 true false [16; 17; 10; 11; 12; 13; 14; 15].

(** An empty ring with [head = tail = 6]. *)
Definition wrap_boundary_ring : ring_t :=
  mk_ring 6 6 6 0 true false (replicate 8 0).

Definition sample_actions : list action :=
  [Send 10; Send 11; ConsumeBatch; Send 12; Send 13; Send 14; Send 15; Send 16;
   Send 17; Send 18; Send 19; Send 20; ConsumeBatch; Send 21; Close].

Definition sample_ops_1 : list ring_op :=
  [OpReserveN 5; OpCommit 5; OpConsumeUpTo 2].

Definition sample_ops_2 : list ring_op :=
  [OpReserve; OpCommit 1; OpConsumeBatch; OpReserveN 7; OpCommit 2; OpClose].

(** A channel for two producers, one of them registered. *)
Definition one_producer_channel : channel_t :=
  (channel_register 2 (channel_init 3 2) (mk_producer 0 0)).1.2.

Definition first_producer : producer_t :=
  (channel_register 2 (channel_init 3 2) (mk_producer 0 0)).2.

(** The same channel with both producers registered, then closed. *)
Definition full_closed_channel : channel_t :=
  channel_close (channel_register 2 one_producer_channel (mk_producer 0 0)).1.2.

(** ** The rest of the channel API *)

(** The loop [for (i = 0; i < count; i++) total += ring_consume_batch(...)]
    is a fold over [0, count); the handler context is threaded from ring to
    ring.  A ring index outside the array, undefined in C, is [None]. *)
Definition channel_consume_all {C : Type} (RING_BITS : Z) (ch : channel_t)
    (handler : consume_handler_t C) (ctx : C) : option (Z * C * channel_t) :=
  let total := 0 in
  let count := producer_count ch in
  foldl (fun acc i =>
           '(total, ctx, ch) ← acc;
           r ← rings ch !! Z.to_nat i;
           '(n, ctx, r) ← ring_consume_batch RING_BITS r handler ctx;
           Some (wrap64 (total + n), ctx,
                 set_rings ch (<[Z.to_nat i := r]> (rings ch))))
        (Some (total, ctx, ch)) (seqZ 0 count).

(** [n] successive calls of [channel_register], each with a fresh handle
    variable; the results and handles are listed in call order. *)
Fixpoint register_many (MAX_PRODUCERS : Z) (n : nat) (ch : channel_t)
  : list (Z * producer_t) * channel_t :=
  match n with
  | O => ([], ch)
  | S n =>
      let '(res, ch, p) := channel_register MAX_PRODUCERS ch (mk_producer 0 0) in
      let '(l, ch) := register_many MAX_PRODUCERS n ch in
      ((res, p) :: l, ch)
  end.

(** The initialised channel after [k] successful registrations: the first
    [k] rings active, the others as [ring_init] left them. *)
Definition registered_channel (RING_BITS MAX_PRODUCERS k : Z) : channel_t :=
  mk_channel
    (replicate (Z.to_nat k) (set_active (ring_init RING_BITS) true)
       ++ replicate (Z.to_nat (MAX_PRODUCERS - k)) (ring_init RING_BITS))
    k false.

(** The ring a consume leaves: [head := tail]. *)
Definition drained (r : ring_t) : ring_t := set_head r (tail r).

(** ** The benchmark's threads ([bench.c]) *)

Definition MESSAGES_PER_PRODUCER : Z := 500000000.
Definition BATCH_SIZE : Z := 32768.

(** The write pattern of [producer_thread].  [slots] is the index of the
    slot the pointer [slots] refers to, so that [slots[i]] is the buffer
    slot [slots + i].  First the 4-way unrolled loop
    [while (i + 4 <= contiguous) { ...; i += 4; }]. *)
Fixpoint write_unrolled_loop (fuel : nat) (b : list Z) (slots sent contiguous i : Z)
  : option (list Z * Z) :=
  if wrap64 (i + 4) <=? contiguous then
    match fuel with
    | O => None
    | S fuel =>
        let b := store b (slots + i) (wrap64 (sent + i)) in
        let b := store b (slots + wrap64 (i + 1)) (wrap64 (wrap64 (sent + i) + 1)) in
        let b := store b (slots + wrap64 (i + 2)) (wrap64 (wrap64 (sent + i) + 2)) in
        let b := store b (slots + wrap64 (i + 3)) (wrap64 (wrap64 (sent + i) + 3)) in
        write_unrolled_loop fuel b slots sent contiguous (wrap64 (i + 4))
    end
  else Some (b, i).

(** Then the remainder loop [while (i < contiguous) { slots[i] = sent + i;
    i++; }]. *)
Fixpoint write_rest_loop (fuel : nat) (b : list Z) (slots sent contiguous i : Z)
  : option (list Z * Z) :=
  if i <? contiguous then
    match fuel with
    | O => None
    | S fuel =>
        let b := store b (slots + i) (wrap64 (sent + i)) in
        write_rest_loop fuel b slots sent contiguous (wrap64 (i + 1))
    end
  else Some (b, i).

(** Both loops, from [i = 0]; each loop gets [contiguous] iterations of
    fuel, which bounds its trip count. *)
Definition write_pattern (b : list Z) (slots sent contiguous : Z) : option (list Z) :=
  '(b, i) ← write_unrolled_loop (Z.to_nat contiguous) b slots sent contiguous 0;
  '(b, _) ← write_rest_loop (Z.to_nat contiguous) b slots sent contiguous i;
  Some b.

(** The pattern written plainly, for comparison with the two loops:
    [slots[i] = sent + i] for each [i] of [0, contiguous), in order. *)
Definition write_each (b : list Z) (slots sent contiguous : Z) : list Z :=
  foldl (fun b i => store b (slots + i) (wrap64 (sent + i))) b (seqZ 0 contiguous).

(** One iteration of the loop [while (sent < MESSAGES_PER_PRODUCER)] of
    [producer_thread]: the ring and [sent] after it.  The local
    [contiguous] is read only after a successful reserve has written it.
    A failed reserve ends the iteration with [spin_hint()]. *)
Definition producer_iteration (RING_BITS messages batch : Z) (r : ring_t) (sent : Z)
  : option (ring_t * Z) :=
  let want := batch in
  let want :=
    if want >? wrap64 (messages - sent) then wrap64 (messages - sent) else want in
  match ring_reserve_n RING_BITS r want (Some 0) with
  | (Some slots, Some contiguous, r) =>
      b ← write_pattern (buffer r) slots sent contiguous;
      let r := set_buffer r b in
      let r := ring_commit r contiguous in
      Some (r, wrap64 (sent + contiguous))
  | (_, _, r) => Some (r, sent)
  end.

(** The loop [while (1)] of [consumer_thread], with the count it stores in
    [messages_received] when it leaves the loop; [fuel] bounds the number of
    iterations. *)
Fixpoint consumer_thread_loop (RING_BITS : Z) (fuel : nat) (r : ring_t) (count : Z)
  : option (ring_t * Z) :=
  match fuel with
  | O => None
  | S fuel =>
      '(consumed, _, r) ← ring_consume_batch RING_BITS r noop_handler tt;
      let count := wrap64 (count + consumed) in
      if consumed =? 0 then
        if ring_is_closed r && ring_is_empty r then Some (r, count)
        else consumer_thread_loop RING_BITS fuel r count
      else consumer_thread_loop RING_BITS fuel r count
  end.

(** A producer and a consumer thread on one ring, interleaved by whole
    loop iterations: the ring, the producer's [sent] and the consumer's
    [count]. *)
Inductive turn :=
  | ProducerTurn
  | ConsumerTurn.

Record bench_state := mk_bench {
  bs_ring : ring_t;
  bs_sent : Z;
  bs_count : Z
}.

Definition bench_turn (RING_BITS messages batch : Z) (t : turn) (s : bench_state)
  : option bench_state :=
  match t with
  | ProducerTurn =>
      if bs_sent s <? messages then
        '(r, sent) ← producer_iteration RING_BITS messages batch (bs_ring s) (bs_sent s);
        Some (mk_bench r sent (bs_count s))
      else Some s
  | ConsumerTurn =>
      '(consumed, _, r) ← ring_consume_batch RING_BITS (bs_ring s) noop_handler tt;
      Some (mk_bench r (bs_sent s) (wrap64 (bs_count s + consumed)))
  end.

Fixpoint bench_run (RING_BITS messages batch : Z) (sched : list turn) (s : bench_state)
  : option bench_state :=
  match sched with
  | [] => Some s
  | t :: sched =>
      s ← bench_turn RING_BITS messages batch t s;
      bench_run RING_BITS messages batch sched s
  end.

(** A channel for three producers, two of them registered, with six items
    in flight on ring 0 and two on ring 1. *)
Definition sample_channel : channel_t :=
  mk_channel
    [sample_ring; mk_ring 2 0 0 0 true false [40; 41; 0; 0; 0; 0; 0; 0]; ring_init 3]
    2 false.

(** The sample ring once its producer has closed it. *)
Definition closed_sample_ring : ring_t := ring_close sample_ring.

Definition sample_schedule : list turn :=
  [ProducerTurn; ProducerTurn; ConsumerTurn; ProducerTurn; ProducerTurn;
   ProducerTurn; ConsumerTurn; ProducerTurn; ConsumerTurn; ProducerTurn;
   ProducerTurn; ConsumerTurn].

(** ** Arithmetic of the 64-bit indices *)

Ltac wrap_lia :=
  unfold wrap64, u64 in *;
  change (2 ^ 64) with 18446744073709551616 in *;
  Z.div_mod_to_equations; lia.

(** Closed goals over concrete states, by evaluation. *)
Ltac by_evaluation :=
  vm_compute; repeat split; first [reflexivity | discriminate | intros ?; discriminate].

Lemma wrap64_u64 x : u64 (wrap64 x).
Proof. wrap_lia. Qed.

Lemma wrap64_small x : u64 x -> wrap64 x = x.
Proof. wrap_lia. Qed.

Lemma wrap64_add_l x y : wrap64 (wrap64 x + y) = wrap64 (x + y).
Proof. unfold wrap64. apply Zplus_mod_idemp_l. Qed.

Lemma wrap64_sub_r x y : wrap64 (x - wrap64 y) = wrap64 (x - y).
Proof. unfold wrap64. apply Zminus_mod_idemp_r. Qed.

Lemma wrap64_sub_l x y : wrap64 (wrap64 x - y) = wrap64 (x - y).
Proof. unfold wrap64. apply Zminus_mod_idemp_l. Qed.

Section RingFacts.

Variable RING_BITS : Z.
Hypothesis RING_BITS_range : 1 <= RING_BITS <= 63.

Local Abbreviation CAP := (RING_CAPACITY RING_BITS).
Local Abbreviation MASK := (RING_MASK RING_BITS).

Lemma RING_CAPACITY_pow : CAP = 2 ^ RING_BITS.
Proof.
  unfold RING_CAPACITY, wrap64. rewrite Z.shiftl_1_l.
  apply Z.mod_small. split; [apply Z.pow_nonneg; lia|].
  apply Z.pow_lt_mono_r; lia.
Qed.

Lemma RING_CAPACITY_bounds : 2 <= CAP <= 2 ^ 63.
Proof.
  rewrite RING_CAPACITY_pow. split.
  - change 2 with (2 ^ 1) at 1. apply Z.pow_le_mono_r; lia.
  - apply Z.pow_le_mono_r; lia.
Qed.

Lemma RING_CAPACITY_divides : (CAP | 2 ^ 64).
Proof.
  rewrite RING_CAPACITY_pow. exists (2 ^ (64 - RING_BITS)).
  rewrite <- Z.pow_add_r by lia. f_equal. lia.
Qed.

Lemma RING_MASK_ones : MASK = Z.ones RING_BITS.
Proof.
  unfold RING_MASK. rewrite Z.ones_equiv, <- RING_CAPACITY_pow.
  pose proof RING_CAPACITY_bounds. apply wrap64_small. unfold u64.
  change (2 ^ 63) with 9223372036854775808 in *.
  change (2 ^ 64) with 18446744073709551616. lia.
Qed.

Lemma land_mask x : Z.land x MASK = x mod CAP.
Proof. rewrite RING_MASK_ones, RING_CAPACITY_pow. apply Z.land_ones. lia. Qed.

Lemma land_mask_bounds x : 0 <= Z.land x MASK < CAP.
Proof.
  rewrite land_mask. apply Z.mod_pos_bound.
  pose proof RING_CAPACITY_bounds. lia.
Qed.

Lemma wrap64_mod_cap x : wrap64 x mod CAP = x mod CAP.
Proof.
  unfold wrap64. apply Z.mod_mod_divide, RING_CAPACITY_divides.
Qed.

Lemma mod_cap_distinct x k u :
  0 <= k < u -> u < CAP -> (x + k) mod CAP <> (x + u) mod CAP.
Proof.
  intros Hk Hu Heq. pose proof RING_CAPACITY_bounds as HC.
  assert (Hd : (u - k) mod CAP = 0).
  { replace (u - k) with ((x + u) - (x + k)) by lia.
    rewrite Zminus_mod, Heq, Z.sub_diag. apply Z.mod_0_l. lia. }
  rewrite Z.mod_small in Hd by lia. lia.
Qed.

(** *** Slots and buffer accesses *)

Lemma slot_of_index H k : Z.land (wrap64 (wrap64 H + k)) MASK = (H + k) mod CAP.
Proof. by rewrite land_mask, wrap64_add_l, wrap64_mod_cap. Qed.

Lemma load_store_eq b idx v :
  0 <= idx < CAP -> length b = Z.to_nat CAP -> load (store b idx v) idx = v.
Proof.
  intros Hi Hl. unfold load, store.
  rewrite list_lookup_insert_eq; [done | lia].
Qed.

Lemma load_store_ne b i j v :
  0 <= i -> 0 <= j -> i <> j -> load (store b i v) j = load b j.
Proof.
  intros Hi Hj Hne. unfold load, store.
  rewrite list_lookup_insert_ne; [done | lia].
Qed.

Lemma slots_from_nil b pos : slots_from RING_BITS b pos 0 = [].
Proof. reflexivity. Qed.

Lemma slots_from_cons b pos n :
  u64 pos -> 0 < n ->
  slots_from RING_BITS b pos n =
    (Z.land pos MASK, load b (Z.land pos MASK))
      :: slots_from RING_BITS b (wrap64 (pos + 1)) (n - 1).
Proof.
  intros Hp Hn. unfold slots_from.
  rewrite seqZ_cons by done. rewrite fmap_cons.
  rewrite Z.add_0_r, (wrap64_small pos) by done. f_equal.
  replace (seqZ (Z.succ 0) (Z.pred n)) with (Z.add 1 <$> seqZ 0 (n - 1)).
  2:{ rewrite fmap_add_seqZ. f_equal; lia. }
  rewrite <- list_fmap_compose. apply list_fmap_ext. intros i k _. simpl.
  rewrite wrap64_add_l. by replace (pos + 1 + k) with (pos + (1 + k)) by lia.
Qed.

Lemma slots_from_snoc b pos n :
  0 <= n ->
  slots_from RING_BITS b pos (n + 1) =
    slots_from RING_BITS b pos n
      ++ [(Z.land (wrap64 (pos + n)) MASK, load b (Z.land (wrap64 (pos + n)) MASK))].
Proof.
  intros Hn. unfold slots_from.
  rewrite seqZ_app by lia. rewrite fmap_app. f_equal.
Qed.

Lemma slots_from_app b pos n m :
  0 <= n -> 0 <= m ->
  slots_from RING_BITS b pos (n + m) =
    slots_from RING_BITS b pos n ++ slots_from RING_BITS b (wrap64 (pos + n)) m.
Proof.
  intros Hn Hm. unfold slots_from.
  rewrite seqZ_app by lia. rewrite fmap_app. f_equal.
  replace (seqZ (0 + n) m) with (Z.add n <$> seqZ 0 m).
  2:{ rewrite fmap_add_seqZ. f_equal; lia. }
  rewrite <- list_fmap_compose. apply list_fmap_ext. intros i k _. simpl.
  rewrite wrap64_add_l. by replace (pos + n + k) with (pos + (n + k)) by lia.
Qed.

Lemma length_slots_from b pos n : length (slots_from RING_BITS b pos n) = Z.to_nat n.
Proof. unfold slots_from. by rewrite length_fmap, length_seqZ. Qed.

(** *** The consume loops *)

Lemma consume_batch_loop_spec {C : Type} (handler : consume_handler_t C) b tail fuel :
  forall pos count ctx,
    u64 pos -> u64 tail -> u64 count ->
    (Z.to_nat (wrap64 (tail - pos)) <= fuel)%nat ->
    consume_batch_loop RING_BITS fuel b handler tail pos count ctx =
      Some (tail, wrap64 (count + wrap64 (tail - pos)),
            invoke handler ctx (slots_from RING_BITS b pos (wrap64 (tail - pos)))).
Proof.
  induction fuel as [|fuel IH]; intros pos count ctx Hp Ht Hc Hf; simpl.
  - assert (wrap64 (tail - pos) = 0) as Hd by (pose proof (wrap64_u64 (tail - pos)); unfold u64 in *; lia).
    assert (pos = tail) as -> by wrap_lia.
    rewrite Z.eqb_refl. simpl. rewrite Hd, Z.add_0_r, wrap64_small by done. done.
  - destruct (Z.eqb_spec pos tail) as [->|Hne]; simpl.
    + rewrite Z.sub_diag. change (wrap64 0) with 0.
      rewrite Z.add_0_r, wrap64_small by done. done.
    + assert (0 < wrap64 (tail - pos)) as Hd by wrap_lia.
      assert (wrap64 (tail - wrap64 (pos + 1)) = wrap64 (tail - pos) - 1) as Hd'
        by wrap_lia.
      rewrite IH; [| apply wrap64_u64 | done | apply wrap64_u64 | lia].
      rewrite Hd'. rewrite (slots_from_cons b pos) by done.
      do 2 f_equal. f_equal.
      rewrite wrap64_add_l. f_equal. lia.
Qed.

(** The fuel [ring_consume_batch] gives its loop is exactly what the loop
    uses: any larger amount yields the same result. *)
Lemma consume_batch_loop_fuel {C : Type} (handler : consume_handler_t C) b tail pos ctx fuel :
  u64 pos -> u64 tail ->
  (Z.to_nat (wrap64 (tail - pos)) <= fuel)%nat ->
  consume_batch_loop RING_BITS fuel b handler tail pos 0 ctx =
    consume_batch_loop RING_BITS (Z.to_nat (wrap64 (tail - pos))) b handler tail pos 0 ctx.
Proof.
  intros Hp Ht Hf.
  rewrite !consume_batch_loop_spec; try done; unfold u64; lia.
Qed.

Lemma ring_consume_batch_spec {C : Type} (handler : consume_handler_t C) r ctx :
  u64 (head r) -> u64 (tail r) ->
  ring_consume_batch RING_BITS r handler ctx =
    Some (wrap64 (tail r - head r),
          invoke handler ctx (in_flight RING_BITS r),
          set_head r (tail r)).
Proof.
  intros Hh Ht. unfold ring_consume_batch, in_flight.
  destruct (Z.eqb_spec (wrap64 (tail r - head r)) 0) as [Hz|Hnz].
  - rewrite Hz. assert (head r = tail r) as Heq by wrap_lia.
    destruct r; simpl in *. by subst.
  - rewrite consume_batch_loop_spec; [| done | done | unfold u64; lia | lia].
    simpl. rewrite Z.add_0_l, wrap64_small by apply wrap64_u64. done.
Qed.

Lemma consume_up_to_loop_spec {C : Type} (handler : consume_handler_t C) b to_consume fuel :
  forall pos count ctx,
    u64 pos -> 0 <= count -> to_consume < 2 ^ 64 ->
    (Z.to_nat (to_consume - count) <= fuel)%nat ->
    consume_up_to_loop RING_BITS fuel b handler to_consume pos count ctx =
      Some (wrap64 (pos + Z.max 0 (to_consume - count)),
            count + Z.max 0 (to_consume - count),
            invoke handler ctx (slots_from RING_BITS b pos (Z.max 0 (to_consume - count)))).
Proof.
  assert (forall pos count ctx, u64 pos -> ~ count < to_consume ->
            Some (pos, count, ctx) =
            Some (wrap64 (pos + Z.max 0 (to_consume - count)),
                  count + Z.max 0 (to_consume - count),
                  invoke handler ctx
                    (slots_from RING_BITS b pos (Z.max 0 (to_consume - count)))))
    as Hexit.
  { intros pos count ctx Hp Hge.
    replace (Z.max 0 (to_consume - count)) with 0 by lia.
    by rewrite !Z.add_0_r, wrap64_small. }
  induction fuel as [|fuel IH]; intros pos count ctx Hp Hc Ht Hf; simpl.
  - destruct (Z.ltb_spec count to_consume) as [Hlt|Hge]; [lia|].
    apply Hexit; [done | lia].
  - destruct (Z.ltb_spec count to_consume) as [Hlt|Hge]; [| apply Hexit; [done | lia]].
    rewrite (wrap64_small (count + 1)) by (unfold u64; lia).
    rewrite IH; [| apply wrap64_u64 | lia | done | lia].
    replace (Z.max 0 (to_consume - count)) with ((to_consume - count - 1) + 1) by lia.
    replace (Z.max 0 (to_consume - (count + 1))) with (to_consume - count - 1) by lia.
    rewrite (slots_from_cons b pos) by (done || lia).
    rewrite wrap64_add_l.
    replace (to_consume - count - 1 + 1 - 1) with (to_consume - count - 1) by lia.
    do 2 f_equal. f_equal; [f_equal |]; lia.
Qed.

Lemma ring_consume_up_to_spec {C : Type} (handler : consume_handler_t C) r max_items ctx :
  u64 (head r) -> u64 (tail r) ->
  let count := Z.max 0 (Z.min (wrap64 (tail r - head r)) max_items) in
  ring_consume_up_to RING_BITS r max_items handler ctx =
    Some (count,
          invoke handler ctx (slots_from RING_BITS (buffer r) (head r) count),
          set_head r (wrap64 (head r + count))).
Proof.
  intros Hh Ht count. unfold ring_consume_up_to.
  pose proof (wrap64_u64 (tail r - head r)) as Ha. unfold u64 in Ha.
  assert (count = 0 ->
          Some (0, ctx, r) =
          Some (count,
                invoke handler ctx (slots_from RING_BITS (buffer r) (head r) count),
                set_head r (wrap64 (head r + count)))) as Htriv.
  { intros ->. rewrite Z.add_0_r, wrap64_small by done. by destruct r. }
  destruct (Z.eqb_spec max_items 0) as [Hm|Hm]; [apply Htriv; lia|].
  destruct (Z.eqb_spec (wrap64 (tail r - head r)) 0) as [Hz|Hz]; [apply Htriv; lia|].
  set (to_consume := if wrap64 (tail r - head r) <? max_items
                     then wrap64 (tail r - head r) else max_items).
  assert (to_consume = Z.min (wrap64 (tail r - head r)) max_items) as Hto.
  { unfold to_consume. destruct (Z.ltb_spec (wrap64 (tail r - head r)) max_items); lia. }
  rewrite consume_up_to_loop_spec; [| done | lia | lia | lia].
  simpl. rewrite Z.sub_0_r, Hto. done.
Qed.

(** *** Distances between wrapped indices *)

Lemma wrapped_distance X Y :
  0 <= X - Y <= 2 ^ 63 -> wrap64 (wrap64 X - wrap64 Y) = X - Y.
Proof. intros. wrap_lia. Qed.

Lemma wrapped_space X Y :
  0 <= X - Y <= CAP -> wrap64 (CAP - wrap64 (wrap64 X - wrap64 Y)) = CAP - (X - Y).
Proof. intros. pose proof RING_CAPACITY_bounds. wrap_lia. Qed.

Lemma wrapped_slot T : Z.land (wrap64 T) MASK = T mod CAP.
Proof. by rewrite land_mask, wrap64_mod_cap. Qed.

(** A ring whose fields are ordered as read is its own unwrapped view. *)
Lemma unwrapped_of_fields r :
  ring_wf RING_BITS r ->
  cached_head r <= head r <= tail r ->
  tail r - cached_head r <= CAP ->
  unwrapped RING_BITS r 0 (tail r) (head r) (cached_head r).
Proof.
  intros (Ht & Hh & Hk & _) Ho Hr. unfold unwrapped.
  rewrite !wrap64_small by done. unfold u64 in *. repeat split; lia.
Qed.

(** *** The producer side *)

Lemma ring_reserve_spec r g T H K :
  unwrapped RING_BITS r g T H K ->
  ring_reserve RING_BITS r =
    if T - K <? CAP then (Some (T mod CAP), r)
    else if T - H <? CAP then (Some (T mod CAP), set_cached_head r (head r))
    else (None, set_cached_head r (head r)).
Proof.
  intros (Ht & Hh & Hk & Ho1 & Ho2 & Hr & _). unfold ring_reserve. simpl.
  rewrite Ht, Hh, Hk, !wrapped_space, wrapped_slot by lia.
  rewrite Z.geb_leb.
  destruct (Z.leb_spec 1 (CAP - (T - K))), (Z.ltb_spec (T - K) CAP); try lia; [done|].
  destruct (Z.ltb_spec (CAP - (T - H)) 1), (Z.ltb_spec (T - H) CAP); try lia; done.
Qed.

Lemma ring_reserve_n_spec r g T H K n out :
  unwrapped RING_BITS r g T H K ->
  n <> 0 -> n <= CAP ->
  let contiguous := Z.min n (CAP - T mod CAP) in
  let out' := match out with Some _ => Some contiguous | None => None end in
  ring_reserve_n RING_BITS r n out =
    if n <=? CAP - (T - K) then (Some (T mod CAP), out', r)
    else if n <=? CAP - (T - H) then (Some (T mod CAP), out', set_cached_head r (head r))
    else (None, out, set_cached_head r (head r)).
Proof.
  intros (Ht & Hh & Hk & Ho1 & Ho2 & Hr & _) Hn0 Hn contiguous out'.
  unfold ring_reserve_n. simpl.
  destruct (Z.eqb_spec n 0) as [?|_]; [done|]. rewrite Z.gtb_ltb.
  destruct (Z.ltb_spec CAP n) as [?|_]; [lia|]. simpl.
  rewrite Ht, Hh, Hk, !wrapped_space, wrapped_slot by lia.
  assert (0 <= T mod CAP < CAP) as Hidx
    by (apply Z.mod_pos_bound; pose proof RING_CAPACITY_bounds; lia).
  assert ((if wrap64 (CAP - T mod CAP) >? n then n else wrap64 (CAP - T mod CAP))
          = contiguous) as Hc.
  { rewrite wrap64_small by (pose proof RING_CAPACITY_bounds; wrap_lia).
    rewrite Z.gtb_ltb. unfold contiguous.
    destruct (Z.ltb_spec n (CAP - T mod CAP)); lia. }
  destruct (Z.ltb_spec (CAP - (T - K)) n), (Z.leb_spec n (CAP - (T - K))); try lia.
  - destruct (Z.ltb_spec (CAP - (T - H)) n), (Z.leb_spec n (CAP - (T - H))); try lia;
      [done|]. by rewrite Hc.
  - destruct (Z.ltb_spec (CAP - (T - K)) n); [lia|]. by rewrite Hc.
Qed.

Lemma ring_commit_unwrapped r g T H K n :
  unwrapped RING_BITS r g T H K -> 0 <= n <= g ->
  unwrapped RING_BITS (ring_commit r n) (g - n) (T + n) H K.
Proof.
  intros (Ht & Hh & Hk & Ho1 & Ho2 & Hr & Hg) Hn. unfold unwrapped, ring_commit. simpl.
  rewrite Ht, wrap64_add_l. repeat split; (done || lia).
Qed.

(** *** Single-slot reserve *)

(** C4: on a ring state with [cached_head <= head <= tail <= head + capacity]
    and [tail - cached_head <= capacity], [ring_reserve] returns the slot
    [tail mod capacity] if and only if [tail - head < capacity] (and [NULL]
    otherwise); it leaves [tail], [head] and the buffer as they are; when the
    cached head already shows room, it succeeds without touching the ring at
    all ([head] is not re-read), and every success implies that the ring
    really has a free slot. *)
Theorem C4_ring_reserve r :
  ring_wf RING_BITS r ->
  cached_head r <= head r <= tail r ->
  tail r <= head r + CAP ->
  tail r - cached_head r <= CAP ->
  (ring_reserve RING_BITS r).1 =
    (if tail r - head r <? CAP then Some (tail r mod CAP) else None) /\
  (is_Some (ring_reserve RING_BITS r).1 <-> tail r - head r < CAP) /\
  tail (ring_reserve RING_BITS r).2 = tail r /\
  head (ring_reserve RING_BITS r).2 = head r /\
  buffer (ring_reserve RING_BITS r).2 = buffer r /\
  (tail r - cached_head r < CAP ->
     ring_reserve RING_BITS r = (Some (tail r mod CAP), r)) /\
  ((ring_reserve RING_BITS r).2 = r \/
   (ring_reserve RING_BITS r).2 = set_cached_head r (head r)).
Proof.
  intros Hwf Ho Hfull Hr.
  rewrite (ring_reserve_spec r 0 _ _ _ (unwrapped_of_fields r Hwf Ho Hr)).
  destruct (Z.ltb_spec (tail r - cached_head r) CAP) as [Hfast|Hslow].
  - destruct (Z.ltb_spec (tail r - head r) CAP); [|lia]. simpl.
    repeat split; first [done | by eexists | by left].
  - destruct (Z.ltb_spec (tail r - head r) CAP); simpl;
      repeat split; first [done | lia | by eexists | by right | intros [? [=]]].
Qed.

(** *** Batch reserve *)

(** C3 (amended): on a ring state with
    [cached_head <= head <= tail <= head + capacity] and, in addition,
    [tail - cached_head <= capacity], and for [1 <= n <= capacity],
    [ring_reserve_n] returns [NULL] iff [capacity - (tail - head) < n]; on
    success it returns the slot [tail mod capacity] and stores
    [min(n, capacity - tail mod capacity)] through a non-null
    [out_contiguous]; on failure it stores nothing; it never modifies
    [tail], [head] or the buffer. *)
Theorem C3_ring_reserve_n r n out :
  ring_wf RING_BITS r ->
  cached_head r <= head r <= tail r ->
  tail r <= head r + CAP ->
  tail r - cached_head r <= CAP ->
  1 <= n <= CAP ->
  ((ring_reserve_n RING_BITS r n out).1.1 = None <-> CAP - (tail r - head r) < n) /\
  ((ring_reserve_n RING_BITS r n out).1.1 = None ->
     (ring_reserve_n RING_BITS r n out).1.2 = out) /\
  ((ring_reserve_n RING_BITS r n out).1.1 <> None ->
     (ring_reserve_n RING_BITS r n out).1.1 = Some (tail r mod CAP) /\
     (ring_reserve_n RING_BITS r n out).1.2 =
       match out with
       | Some _ => Some (Z.min n (CAP - tail r mod CAP))
       | None => None
       end) /\
  tail (ring_reserve_n RING_BITS r n out).2 = tail r /\
  head (ring_reserve_n RING_BITS r n out).2 = head r /\
  buffer (ring_reserve_n RING_BITS r n out).2 = buffer r.
Proof.
  intros Hwf Ho Hfull Hr Hn.
  rewrite (ring_reserve_n_spec r 0 _ _ _ n out (unwrapped_of_fields r Hwf Ho Hr))
    by lia.
  destruct (Z.leb_spec n (CAP - (tail r - cached_head r))); simpl.
  - repeat split; try done; try lia.
  - destruct (Z.leb_spec n (CAP - (tail r - head r))); simpl;
      repeat split; try done; try lia.
Qed.

(** *** Commit *)

(** C9: for every ring state and every [n], with no condition relating [n]
    to a prior reserve, [ring_commit] sets [tail] to [tail + n] modulo
    [2^64] and leaves [head], [cached_head], [cached_tail], [closed],
    [active] and the buffer unchanged; [n] is not validated: committing
    [capacity + 1] slots on the freshly initialised ring makes [tail - head]
    exceed the capacity. *)
Theorem C9_ring_commit_frame r n :
  tail (ring_commit r n) = (tail r + n) mod 2 ^ 64 /\
  head (ring_commit r n) = head r /\
  cached_head (ring_commit r n) = cached_head r /\
  cached_tail (ring_commit r n) = cached_tail r /\
  closed (ring_commit r n) = closed r /\
  active (ring_commit r n) = active r /\
  buffer (ring_commit r n) = buffer r /\
  (forall idx, load (buffer (ring_commit r n)) idx = load (buffer r) idx) /\
  tail (ring_commit (ring_init RING_BITS) (CAP + 1))
    - head (ring_commit (ring_init RING_BITS) (CAP + 1)) > CAP.
Proof.
  repeat split. simpl. pose proof RING_CAPACITY_bounds.
  rewrite wrap64_small; [lia|]. unfold u64.
  change (2 ^ 63) with 9223372036854775808 in *.
  change (2 ^ 64) with 18446744073709551616. lia.
Qed.

(** *** Batch consume *)

Lemma invoke_in_flight {C : Type} (handler : consume_handler_t C) r ctx :
  u64 (head r) -> u64 (tail r) -> head r <= tail r ->
  invoke handler ctx (in_flight RING_BITS r) =
    foldl (fun ctx i => handler (i mod CAP) (load (buffer r) (i mod CAP)) ctx)
          ctx (seqZ (head r) (tail r - head r)).
Proof.
  intros Hh Ht Hle. unfold invoke, in_flight, slots_from.
  rewrite (wrap64_small (tail r - head r)) by (unfold u64 in *; lia).
  replace (seqZ (head r) (tail r - head r))
    with (Z.add (head r) <$> seqZ 0 (tail r - head r)).
  2:{ rewrite fmap_add_seqZ. f_equal; lia. }
  rewrite !foldl_fmap. simpl.
  generalize (seqZ 0 (tail r - head r)). intros l. revert ctx.
  induction l as [|k l IH]; intros ctx; simpl; [done|].
  by rewrite IH, land_mask, wrap64_mod_cap.
Qed.

(** C5: on a ring state with [head <= tail <= head + capacity],
    [ring_consume_batch] returns (so its loop terminates), having invoked the
    handler on [&buffer[i mod capacity]] for each [i] of [head, tail) in
    increasing order; it then sets [head := tail] and returns [tail - head];
    on an empty ring it returns 0, invokes no handler and leaves the ring,
    hence [head], as it is. *)
Theorem C5_ring_consume_batch {C : Type} (handler : consume_handler_t C) r ctx :
  u64 (head r) -> u64 (tail r) ->
  head r <= tail r -> tail r <= head r + CAP ->
  ring_consume_batch RING_BITS r handler ctx =
    Some (tail r - head r,
          foldl (fun ctx i => handler (i mod CAP) (load (buffer r) (i mod CAP)) ctx)
                ctx (seqZ (head r) (tail r - head r)),
          set_head r (tail r)) /\
  (head r = tail r ->
     ring_consume_batch RING_BITS r handler ctx = Some (0, ctx, r)).
Proof.
  intros Hh Ht Hle Hcap. split.
  - rewrite ring_consume_batch_spec, invoke_in_flight by done.
    by rewrite (wrap64_small (tail r - head r)) by (unfold u64 in *; lia).
  - intros Heq. unfold ring_consume_batch. by rewrite Heq, Z.sub_diag.
Qed.

(** *** Sending one value *)

Lemma in_flight_unwrapped r g T H K :
  unwrapped RING_BITS r g T H K ->
  in_flight RING_BITS r = slots_from RING_BITS (buffer r) (wrap64 H) (T - H).
Proof.
  intros (Ht & Hh & Hk & Ho1 & Ho2 & Hr & _). unfold in_flight.
  pose proof RING_CAPACITY_bounds.
  rewrite Ht, Hh, wrapped_distance; [done|].
  change (2 ^ 63) with 9223372036854775808 in *. lia.
Qed.

Lemma slots_from_store b H n v :
  0 <= n < CAP ->
  slots_from RING_BITS (store b ((H + n) mod CAP) v) (wrap64 H) n =
    slots_from RING_BITS b (wrap64 H) n.
Proof.
  intros Hn. unfold slots_from. apply list_fmap_ext.
  intros i k [-> Hi]%lookup_seqZ. simpl.
  rewrite slot_of_index. f_equal.
  pose proof RING_CAPACITY_bounds.
  apply load_store_ne.
  - apply Z.mod_pos_bound. lia.
  - apply Z.mod_pos_bound. lia.
  - apply not_eq_sym, mod_cap_distinct; lia.
Qed.

Lemma producer_send_spec r g T H K value :
  unwrapped RING_BITS r g T H K ->
  producer_send RING_BITS r value =
    if T - H <? CAP then
      (true,
       ring_commit
         (set_buffer (if T - K <? CAP then r else set_cached_head r (head r))
                     (store (buffer r) (T mod CAP) value)) 1)
    else (false, set_cached_head r (head r)).
Proof.
  intros Hu. unfold producer_send. rewrite (ring_reserve_spec r g T H K Hu).
  destruct Hu as (Ht & Hh & Hk & Ho1 & Ho2 & Hr & _).
  destruct (Z.ltb_spec (T - K) CAP), (Z.ltb_spec (T - H) CAP); try lia; done.
Qed.

Lemma producer_send_step r T H K value :
  unwrapped RING_BITS r 0 T H K ->
  length (buffer r) = Z.to_nat CAP ->
  exists r' K',
    length (buffer r') = Z.to_nat CAP /\
    ((producer_send RING_BITS r value = (true, r') /\
      T - H < CAP /\
      unwrapped RING_BITS r' 0 (T + 1) H K' /\
      in_flight RING_BITS r' = in_flight RING_BITS r ++ [(T mod CAP, value)]) \/
     (producer_send RING_BITS r value = (false, r') /\
      T - H = CAP /\
      unwrapped RING_BITS r' 0 T H K' /\
      in_flight RING_BITS r' = in_flight RING_BITS r)).
Proof.
  intros Hu Hlen. rewrite (producer_send_spec r 0 T H K value Hu).
  pose proof RING_CAPACITY_bounds as HC.
  pose proof (in_flight_unwrapped r 0 T H K Hu) as Hfl.
  destruct Hu as (Ht & Hh & Hk & Ho1 & Ho2 & Hr & _).
  assert (0 <= T mod CAP < CAP) as Hidx by (apply Z.mod_pos_bound; lia).
  destruct (Z.ltb_spec (T - H) CAP) as [Hroom|Hfull].
  - eexists _, (if T - K <? CAP then K else H). split; [|left; split; [done|]].
    { simpl. unfold store. by rewrite length_insert. }
    split; [done|].
    assert (unwrapped RING_BITS
              (ring_commit
                 (set_buffer (if T - K <? CAP then r else set_cached_head r (head r))
                    (store (buffer r) (T mod CAP) value)) 1)
              0 (T + 1) H (if T - K <? CAP then K else H)) as Hu'.
    { unfold unwrapped. destruct (Z.ltb_spec (T - K) CAP); simpl;
        rewrite Ht, wrap64_add_l; repeat split; (done || lia). }
    split; [done|].
    rewrite (in_flight_unwrapped _ _ _ _ _ Hu'), Hfl.
    replace (T + 1 - H) with ((T - H) + 1) by lia.
    rewrite slots_from_snoc by lia.
    assert (buffer (ring_commit
                 (set_buffer (if T - K <? CAP then r else set_cached_head r (head r))
                    (store (buffer r) (T mod CAP) value)) 1)
            = store (buffer r) (T mod CAP) value) as -> by done.
    rewrite slot_of_index. replace (H + (T - H)) with T by lia.
    rewrite load_store_eq by done. f_equal.
    replace (T mod CAP) with ((H + (T - H)) mod CAP) at 1 by (f_equal; lia).
    apply slots_from_store. lia.
  - exists (set_cached_head r (head r)), H. split; [done|]. right.
    split; [done|]. split; [lia|]. split; [|done].
    unfold unwrapped. simpl. repeat split; (done || lia).
Qed.

(** C10: the [closed] flag does not interfere with the producer
    operations: on two ring states that differ only in [closed], each of
    [ring_reserve], [ring_reserve_n], [ring_commit] and [producer_send]
    returns the same result, leaves the two rings again equal except for
    [closed], and leaves each ring's [closed] as it was; in particular
    [producer_send] on a closed ring that is not full still succeeds and
    publishes the value. *)
Theorem C10_closed_noninterference r1 r2 n out value :
  closed_equiv r1 r2 ->
  ((ring_reserve RING_BITS r1).1 = (ring_reserve RING_BITS r2).1 /\
   closed_equiv (ring_reserve RING_BITS r1).2 (ring_reserve RING_BITS r2).2 /\
   closed (ring_reserve RING_BITS r1).2 = closed r1 /\
   closed (ring_reserve RING_BITS r2).2 = closed r2) /\
  ((ring_reserve_n RING_BITS r1 n out).1 = (ring_reserve_n RING_BITS r2 n out).1 /\
   closed_equiv (ring_reserve_n RING_BITS r1 n out).2
                (ring_reserve_n RING_BITS r2 n out).2 /\
   closed (ring_reserve_n RING_BITS r1 n out).2 = closed r1 /\
   closed (ring_reserve_n RING_BITS r2 n out).2 = closed r2) /\
  (closed_equiv (ring_commit r1 n) (ring_commit r2 n) /\
   closed (ring_commit r1 n) = closed r1 /\
   closed (ring_commit r2 n) = closed r2) /\
  ((producer_send RING_BITS r1 value).1 = (producer_send RING_BITS r2 value).1 /\
   closed_equiv (producer_send RING_BITS r1 value).2
                (producer_send RING_BITS r2 value).2 /\
   closed (producer_send RING_BITS r1 value).2 = closed r1 /\
   closed (producer_send RING_BITS r2 value).2 = closed r2) /\
  (closed r1 = true ->
   ring_wf RING_BITS r1 ->
   cached_head r1 <= head r1 <= tail r1 ->
   tail r1 - cached_head r1 <= CAP ->
   tail r1 - head r1 < CAP ->
   (producer_send RING_BITS r1 value).1 = true /\
   tail (producer_send RING_BITS r1 value).2 = wrap64 (tail r1 + 1) /\
   load (buffer (producer_send RING_BITS r1 value).2) (tail r1 mod CAP) = value /\
   closed (producer_send RING_BITS r1 value).2 = true).
Proof.
  intros Heq. split; [|split; [|split; [|split]]].
  - destruct r1, r2, Heq as (? & ? & ? & ? & ? & ?); simpl in *; subst.
    unfold ring_reserve, closed_equiv; simpl.
    repeat case_match; simplify_eq; simpl; first [done | congruence].
  - destruct r1, r2, Heq as (? & ? & ? & ? & ? & ?); simpl in *; subst.
    unfold ring_reserve_n, closed_equiv; simpl.
    repeat case_match; simplify_eq; simpl; first [done | congruence].
  - destruct r1, r2, Heq as (? & ? & ? & ? & ? & ?); simpl in *; subst.
    unfold ring_commit, closed_equiv; simpl. done.
  - destruct r1, r2, Heq as (? & ? & ? & ? & ? & ?); simpl in *; subst.
    unfold producer_send, ring_reserve, closed_equiv; simpl.
    repeat case_match; simplify_eq; simpl; first [done | congruence].
  - intros Hc Hwf Ho Hr Hroom.
    rewrite (producer_send_spec r1 0 _ _ _ value (unwrapped_of_fields r1 Hwf Ho Hr)).
    destruct (Z.ltb_spec (tail r1 - head r1) CAP); [|lia]. simpl.
    destruct Hwf as (_ & _ & _ & Hlen).
    assert (0 <= tail r1 mod CAP < CAP) as Hidx
      by (apply Z.mod_pos_bound; pose proof RING_CAPACITY_bounds; lia).
    rewrite load_store_eq by done.
    repeat split; destruct (tail r1 - cached_head r1 <? CAP); simpl; done.
Qed.

(** *** Delivery *)

Lemma invoke_app {C : Type} (handler : consume_handler_t C) ctx calls1 calls2 :
  invoke handler ctx (calls1 ++ calls2) = invoke handler (invoke handler ctx calls1) calls2.
Proof. apply foldl_app. Qed.

Lemma invoke_record_call calls0 calls :
  invoke record_call calls0 calls = calls0 ++ calls.
Proof.
  revert calls0. unfold invoke.
  induction calls as [|[idx item] calls IH]; intros calls0; simpl.
  - by rewrite app_nil_r.
  - rewrite IH. unfold record_call. by rewrite <- app_assoc.
Qed.

Lemma ring_init_unwrapped : unwrapped RING_BITS (ring_init RING_BITS) 0 0 0 0.
Proof.
  pose proof RING_CAPACITY_bounds. unfold unwrapped. simpl.
  repeat split; (done || lia).
Qed.

Lemma ring_init_wf : ring_wf RING_BITS (ring_init RING_BITS).
Proof.
  unfold ring_wf, u64. simpl. rewrite length_replicate. repeat split; lia.
Qed.

Lemma ring_consume_batch_unwrapped {C : Type} (handler : consume_handler_t C) r g T H K ctx :
  unwrapped RING_BITS r g T H K ->
  ring_consume_batch RING_BITS r handler ctx =
    Some (T - H, invoke handler ctx (in_flight RING_BITS r), set_head r (tail r)) /\
  unwrapped RING_BITS (set_head r (tail r)) g T T K.
Proof.
  intros Hu. pose proof Hu as (Ht & Hh & Hk & Ho1 & Ho2 & Hr & Hg). split.
  - rewrite ring_consume_batch_spec by (rewrite ?Ht, ?Hh; apply wrap64_u64).
    rewrite Ht, Hh, wrapped_distance; [done|].
    pose proof RING_CAPACITY_bounds.
    change (2 ^ 63) with 9223372036854775808 in *. lia.
  - unfold unwrapped. simpl. repeat split; (done || lia).
Qed.

(** The values sent successfully are, at every point of a run, those already
    handed to the handler followed by those in flight; the invocations
    [calls] do not depend on the handler. *)
Lemma run_actions_delivery tr :
  forall r sent calls T H K,
    unwrapped RING_BITS r 0 T H K ->
    length (buffer r) = Z.to_nat CAP ->
    sent = calls.*2 ++ (in_flight RING_BITS r).*2 ->
    exists r' sent' calls' T' H' K',
      (forall (C : Type) (handler : consume_handler_t C) (ctx0 : C),
         run_actions RING_BITS handler tr (mk_sim r sent (invoke handler ctx0 calls)) =
           Some (mk_sim r' sent' (invoke handler ctx0 calls'))) /\
      unwrapped RING_BITS r' 0 T' H' K' /\
      length (buffer r') = Z.to_nat CAP /\
      sent' = calls'.*2 ++ (in_flight RING_BITS r').*2.
Proof.
  induction tr as [|a tr IH]; intros r sent calls T H K Hu Hlen Hsent.
  - exists r, sent, calls, T, H, K. split; [done|]. split; [done|]. by split.
  - destruct a as [value| |].
    + destruct (producer_send_step r T H K value Hu Hlen)
        as (r1 & K1 & Hlen1 & [(Hs & _ & Hu1 & Hfl)|(Hs & _ & Hu1 & Hfl)]).
      * destruct (IH r1 (sent ++ [value]) calls _ _ _ Hu1 Hlen1)
          as (r' & sent' & calls' & T' & H' & K' & Hrun & Hu' & Hlen' & Hsent').
        { rewrite Hfl, fmap_app, Hsent. simpl. by rewrite app_assoc. }
        exists r', sent', calls', T', H', K'.
        split; [|split; [done|]; by split].
        intros C handler ctx0. simpl. rewrite Hs. simpl. apply Hrun.
      * destruct (IH r1 sent calls _ _ _ Hu1 Hlen1)
          as (r' & sent' & calls' & T' & H' & K' & Hrun & Hu' & Hlen' & Hsent').
        { by rewrite Hfl. }
        exists r', sent', calls', T', H', K'.
        split; [|split; [done|]; by split].
        intros C handler ctx0. simpl. rewrite Hs. simpl. apply Hrun.
    + pose proof (fun C handler ctx => ring_consume_batch_unwrapped (C:=C) handler r 0 T H K ctx Hu) as Hcb.
      destruct (Hcb unit noop_handler tt) as [_ Hu1].
      destruct (IH (set_head r (tail r)) sent (calls ++ in_flight RING_BITS r) T T K Hu1 Hlen)
        as (r' & sent' & calls' & T' & H' & K' & Hrun & Hu' & Hlen' & Hsent').
      { rewrite fmap_app, Hsent.
        rewrite (in_flight_unwrapped _ _ _ _ _ Hu1), Z.sub_diag, slots_from_nil.
        by rewrite app_nil_r. }
      exists r', sent', calls', T', H', K'.
        split; [|split; [done|]; by split].
      intros C handler ctx0. simpl.
      destruct (Hcb C handler (invoke handler ctx0 calls)) as [-> _]. simpl.
      rewrite <- invoke_app. apply Hrun.
    + destruct (IH (ring_close r) sent calls T H K)
        as (r' & sent' & calls' & T' & H' & K' & Hrun & Hu' & Hlen' & Hsent');
        [exact Hu | exact Hlen | exact Hsent |].
      exists r', sent', calls', T', H', K'.
      split; [|split; [done|]; by split].
      intros C handler ctx0. simpl. apply Hrun.
Qed.

Lemma run_actions_app {C : Type} (handler : consume_handler_t C) tr1 tr2 s :
  run_actions RING_BITS handler (tr1 ++ tr2) s =
    run_actions RING_BITS handler tr1 s ≫= run_actions RING_BITS handler tr2.
Proof.
  revert s. induction tr1 as [|a tr1 IH]; intros s; simpl; [done|].
  destruct (run_action RING_BITS handler a s); simpl; [apply IH | done].
Qed.

(** C1: round-trip delivery.  Whatever the interleaving of [producer_send]
    and [ring_consume_batch] calls (and of [ring_close]) on a ring that
    starts initialised, once a final batch has drained the ring the handler has been invoked exactly
    once for each value whose send succeeded, on these values in the order
    in which they were sent (so a value committed before another one is
    seen before it), and the ring is empty.  The recording handler shows the
    sequence of invocations; every other handler ends in the context that
    applying it to exactly these invocations, in this order, gives. *)
Theorem C1_round_trip_delivery (tr : list action) :
  exists s : sim (list (Z * Z)),
    run_actions RING_BITS record_call (tr ++ [ConsumeBatch])
                (mk_sim (ring_init RING_BITS) [] []) = Some s /\
    (sim_ctx s).*2 = sim_sent s /\
    ring_is_empty (sim_ring s) = true /\
    forall (C : Type) (handler : consume_handler_t C) (ctx0 : C),
      run_actions RING_BITS handler (tr ++ [ConsumeBatch])
                  (mk_sim (ring_init RING_BITS) [] ctx0) =
        Some (mk_sim (sim_ring s) (sim_sent s) (invoke handler ctx0 (sim_ctx s))).
Proof.
  destruct (run_actions_delivery (tr ++ [ConsumeBatch]) (ring_init RING_BITS) [] []
              0 0 0 ring_init_unwrapped)
    as (r' & sent' & calls' & T' & H' & K' & Hrun & Hu' & Hlen' & Hsent').
  { simpl. by rewrite length_replicate. }
  { done. }
  assert (Hdrained : exists r1 sent1 calls1 T1 H1 K1,
             (forall (C : Type) (handler : consume_handler_t C) (ctx0 : C),
                run_actions RING_BITS handler tr (mk_sim (ring_init RING_BITS) [] ctx0) =
                  Some (mk_sim r1 sent1 (invoke handler ctx0 calls1))) /\
             unwrapped RING_BITS r1 0 T1 H1 K1).
  { destruct (run_actions_delivery tr (ring_init RING_BITS) [] []
                0 0 0 ring_init_unwrapped)
      as (r1 & sent1 & calls1 & T1 & H1 & K1 & Hrun1 & Hu1 & _).
    { simpl. by rewrite length_replicate. }
    { done. }
    by exists r1, sent1, calls1, T1, H1, K1. }
  destruct Hdrained as (r1 & sent1 & calls1 & T1 & H1 & K1 & Hrun1 & Hu1).
  pose proof (Hrun _ record_call []) as Hrec.
  change (invoke record_call [] []) with (@nil (Z * Z)) in Hrec.
  rewrite invoke_record_call in Hrec. simpl in Hrec.
  exists (mk_sim r' sent' calls'). split; [exact Hrec|]. simpl.
  (* the last action of the run is the draining batch *)
  assert (r' = set_head r1 (tail r1)) as Hr'.
  { rewrite run_actions_app, (Hrun1 _ record_call []) in Hrec. simpl in Hrec.
    destruct (ring_consume_batch_unwrapped record_call r1 0 T1 H1 K1
                (invoke record_call [] calls1) Hu1) as [Hcb _].
    rewrite Hcb in Hrec. simpl in Hrec. by injection Hrec as <- _ _. }
  assert (in_flight RING_BITS r' = []) as Hempty.
  { unfold in_flight. rewrite Hr'. simpl. by rewrite Z.sub_diag. }
  repeat split.
  - by rewrite Hsent', Hempty, app_nil_r.
  - unfold ring_is_empty, ring_len. rewrite Hr'. simpl. by rewrite Z.sub_diag.
  - intros C handler ctx0. apply (Hrun C handler ctx0).
Qed.

(** *** The logical invariants along a run *)

Lemma committed_app tr1 tr2 : committed (tr1 ++ tr2) = committed tr1 + committed tr2.
Proof.
  induction tr1 as [|o tr1 IH]; simpl; [done|]. destruct o; lia.
Qed.

Lemma exec_ops_app {C : Type} (handler : consume_handler_t C) tr1 tr2 s :
  exec_ops RING_BITS handler (tr1 ++ tr2) s =
    exec_ops RING_BITS handler tr1 s ≫= exec_ops RING_BITS handler tr2.
Proof.
  revert s. induction tr1 as [|o tr1 IH]; intros s; simpl; [done|].
  destruct (exec_op RING_BITS handler o s); simpl; [apply IH | done].
Qed.

Lemma exec_ops_cons {C : Type} (handler : consume_handler_t C) o tr s :
  exec_ops RING_BITS handler (o :: tr) s =
    match exec_op RING_BITS handler o s with
    | Some s1 => exec_ops RING_BITS handler tr s1
    | None => None
    end.
Proof. reflexivity. Qed.

Lemma unwrapped_granted r g g' T H K :
  unwrapped RING_BITS r g T H K -> T - K + g' <= CAP ->
  unwrapped RING_BITS r g' T H K.
Proof.
  intros (?&?&?&?&?&?&?) ?. unfold unwrapped. repeat split; (done || lia).
Qed.

Lemma unwrapped_refresh r g g' T H K :
  unwrapped RING_BITS r g T H K -> T - H + g' <= CAP ->
  unwrapped RING_BITS (set_cached_head r (head r)) g' T H H.
Proof.
  intros (?&?&?&?&?&?&?) ?. unfold unwrapped. simpl. repeat split; (done || lia).
Qed.

Lemma exec_op_unwrapped {C : Type} (handler : consume_handler_t C) o s s' T H K :
  unwrapped RING_BITS (ps_ring s) (ps_granted s) T H K ->
  exec_op RING_BITS handler o s = Some s' ->
  exists H' K',
    unwrapped RING_BITS (ps_ring s') (ps_granted s') (T + committed [o]) H' K' /\
    H <= H' /\ 0 <= committed [o].
Proof.
  destruct s as [r g ctx]. simpl. intros Hu Hex.
  pose proof Hu as (Ht & Hh & Hk & Ho1 & Ho2 & Hr & Hg).
  pose proof RING_CAPACITY_bounds as HC.
  destruct o as [|n|n| |max_items|]; simpl in *; rewrite ?Z.add_0_r.
  - (* ring_reserve *)
    rewrite (ring_reserve_spec r g T H K Hu) in Hex.
    destruct (Z.ltb_spec (T - K) CAP); [|destruct (Z.ltb_spec (T - H) CAP)];
      simplify_eq; simpl.
    + exists H, K. split; [|lia]. apply (unwrapped_granted r g); [done | lia].
    + exists H, H. split; [|lia]. apply (unwrapped_refresh r g _ T H K); [done | lia].
    + exists H, H. split; [|lia]. apply (unwrapped_refresh r g _ T H K); [done | lia].
  - (* ring_reserve_n *)
    destruct (decide (n = 0 \/ CAP < n)) as [Hbad|Hok].
    + unfold ring_reserve_n in Hex. rewrite Z.gtb_ltb in Hex.
      destruct (Z.eqb_spec n 0), (Z.ltb_spec CAP n); try lia;
        simpl in Hex; simplify_eq; simpl; exists H, K; (split; [done | lia]).
    + assert (0 <= T mod CAP < CAP) as Hidx by (apply Z.mod_pos_bound; lia).
      rewrite (ring_reserve_n_spec r g T H K n (Some 0) Hu) in Hex by lia.
      destruct (Z.leb_spec n (CAP - (T - K))); [|destruct (Z.leb_spec n (CAP - (T - H)))];
        simplify_eq; simpl.
      * exists H, K. split; [|lia]. apply (unwrapped_granted r g); [done | lia].
      * exists H, H. split; [|lia]. apply (unwrapped_refresh r g _ T H K); [done | lia].
      * exists H, H. split; [|lia]. apply (unwrapped_refresh r g _ T H K); [done | lia].
  - (* ring_commit *)
    destruct (Z.leb_spec 0 n), (Z.leb_spec n g); simpl in Hex; simplify_eq.
    simpl. exists H, K. split; [|lia].
    apply ring_commit_unwrapped; [done | lia].
  - (* ring_consume_batch *)
    destruct (ring_consume_batch_unwrapped handler r g T H K ctx Hu) as [Hcb Hu'].
    rewrite Hcb in Hex. simpl in Hex. simplify_eq. simpl.
    exists T, K. split; [done | lia].
  - (* ring_consume_up_to *)
    rewrite ring_consume_up_to_spec in Hex by (rewrite ?Ht, ?Hh; apply wrap64_u64).
    simpl in Hex. simplify_eq. simpl.
    rewrite Ht, Hh, wrapped_distance
      by (change (2 ^ 63) with 9223372036854775808 in *; lia).
    exists (H + Z.max 0 (Z.min (T - H) max_items)), K. split; [|lia].
    unfold unwrapped. simpl. rewrite wrap64_add_l. repeat split; (done || lia).
  - (* ring_close *)
    simplify_eq. simpl. exists H, K. split; [done | lia].
Qed.

Lemma exec_ops_unwrapped {C : Type} (handler : consume_handler_t C) tr :
  forall s s' T H K,
    unwrapped RING_BITS (ps_ring s) (ps_granted s) T H K ->
    exec_ops RING_BITS handler tr s = Some s' ->
    exists H' K',
      unwrapped RING_BITS (ps_ring s') (ps_granted s') (T + committed tr) H' K' /\
      H <= H' /\ 0 <= committed tr.
Proof.
  induction tr as [|o tr IH]; intros s s' T H K Hu Hex; simpl in Hex.
  - simplify_eq. exists H, K. simpl. rewrite Z.add_0_r. split; [done | lia].
  - destruct (exec_op RING_BITS handler o s) as [s1|] eqn:Hop; [|done].
    simpl in Hex.
    destruct (exec_op_unwrapped handler o s s1 T H K Hu Hop) as (H1 & K1 & Hu1 & HH1 & Hc1).
    destruct (IH s1 s' _ H1 K1 Hu1 Hex) as (H' & K' & Hu' & HH' & Hc').
    exists H', K'. change (o :: tr) with ([o] ++ tr).
    rewrite committed_app, Z.add_assoc. split; [done | lia].
Qed.

Lemma unwrapped_fields r g T H K :
  unwrapped RING_BITS r g T H K -> T < 2 ^ 64 ->
  tail r = T /\ head r = H /\ cached_head r = K.
Proof.
  intros (Ht & Hh & Hk & Ho1 & Ho2 & Hr & Hg) HT.
  rewrite Ht, Hh, Hk, !wrap64_small by (unfold u64; lia). done.
Qed.

Lemma unwrapped_inv_mod r g T H K :
  unwrapped RING_BITS r g T H K -> ring_inv_mod RING_BITS r.
Proof.
  intros (Ht & Hh & Hk & Ho1 & Ho2 & Hr & Hg). unfold ring_inv_mod.
  pose proof RING_CAPACITY_bounds.
  rewrite Ht, Hh, Hk, !wrapped_distance
    by (change (2 ^ 63) with 9223372036854775808 in *; lia).
  lia.
Qed.

(** C2 (amended): take any run of ring operations from the state left by
    [ring_init] in which every [ring_commit(n)] stays within the slots
    granted by the preceding successful reserve, and any later point [s2]
    of it after an earlier point [s1].  As long as fewer than [2^64] slots
    have been committed in all (the 64-bit indices have not wrapped),
    [head <= tail], [tail - head <= capacity] and [cached_head <= head] hold
    at [s2], [tail] is the number of slots committed, and [head] and [tail]
    have not decreased since [s1].  Without that bound the distances still
    obey the invariants modulo [2^64]. *)
Theorem C2_ring_invariants {C : Type} (handler : consume_handler_t C) ctx0 tr1 tr2 s1 s2 :
  exec_ops RING_BITS handler tr1 (mk_pstate (ring_init RING_BITS) 0 ctx0) = Some s1 ->
  exec_ops RING_BITS handler tr2 s1 = Some s2 ->
  ring_inv_mod RING_BITS (ps_ring s2) /\
  (committed (tr1 ++ tr2) < 2 ^ 64 ->
     ring_inv RING_BITS (ps_ring s2) /\
     tail (ps_ring s2) = committed (tr1 ++ tr2) /\
     head (ps_ring s1) <= head (ps_ring s2) /\
     tail (ps_ring s1) <= tail (ps_ring s2)).
Proof.
  intros Hex1 Hex2.
  destruct (exec_ops_unwrapped handler tr1
              (mk_pstate (ring_init RING_BITS) 0 ctx0) s1 0 0 0 ring_init_unwrapped Hex1)
    as (H1 & K1 & Hu1 & HH1 & Hc1).
  destruct (exec_ops_unwrapped handler tr2 s1 s2 _ H1 K1 Hu1 Hex2)
    as (H2 & K2 & Hu2 & HH2 & Hc2).
  split; [by eapply unwrapped_inv_mod|].
  rewrite committed_app. intros Hbound.
  destruct (unwrapped_fields _ _ _ _ _ Hu1) as (Ht1 & Hh1 & _); [lia|].
  destruct (unwrapped_fields _ _ _ _ _ Hu2) as (Ht2 & Hh2 & Hk2); [lia|].
  destruct Hu2 as (_ & _ & _ & Ho1 & Ho2 & Hr & _).
  unfold ring_inv. rewrite Ht1, Hh1, Ht2, Hh2, Hk2. repeat split; lia.
Qed.

(** *** Wrapping the indices *)

Lemma reserve_commit_full {C : Type} (handler : consume_handler_t C) r g ctx T K :
  unwrapped RING_BITS r g T T K -> T mod CAP = 0 ->
  exists r1 K1,
    exec_op RING_BITS handler (OpReserveN CAP) (mk_pstate r g ctx)
      = Some (mk_pstate r1 CAP ctx) /\
    unwrapped RING_BITS r1 CAP T T K1 /\
    exec_op RING_BITS handler (OpCommit CAP) (mk_pstate r1 CAP ctx)
      = Some (mk_pstate (ring_commit r1 CAP) 0 ctx) /\
    unwrapped RING_BITS (ring_commit r1 CAP) 0 (T + CAP) T K1.
Proof.
  intros Hu Hmod. pose proof RING_CAPACITY_bounds as HC.
  pose proof Hu as (Ht & Hh & Hk & Ho1 & Ho2 & Hr & Hg).
  assert (exists r1 K1,
             exec_op RING_BITS handler (OpReserveN CAP) (mk_pstate r g ctx)
               = Some (mk_pstate r1 CAP ctx) /\
             unwrapped RING_BITS r1 CAP T T K1) as (r1 & K1 & Hres & Hu1).
  { simpl. rewrite (ring_reserve_n_spec r g T T K CAP (Some 0) Hu) by lia.
    rewrite Hmod, Z.sub_0_r, Z.min_id, Z.sub_diag, Z.sub_0_r, Z.leb_refl.
    destruct (Z.leb_spec CAP (CAP - (T - K))).
    - exists r, K. split; [done|]. apply (unwrapped_granted r g); [done | lia].
    - exists (set_cached_head r (head r)), T. split; [done|].
      apply (unwrapped_refresh r g _ T T K); [done | lia]. }
  exists r1, K1. split; [done|]. split; [done|]. split.
  - simpl. rewrite Z.leb_refl, Z.sub_diag.
    destruct (Z.leb_spec 0 CAP); [done | lia].
  - replace 0 with (CAP - CAP) at 1 by lia.
    apply ring_commit_unwrapped; [done | lia].
Qed.

Lemma full_cycle_run {C : Type} (handler : consume_handler_t C) r g ctx T K :
  unwrapped RING_BITS r g T T K -> T mod CAP = 0 ->
  exists r' g' ctx' K',
    exec_ops RING_BITS handler (full_cycle RING_BITS) (mk_pstate r g ctx)
      = Some (mk_pstate r' g' ctx') /\
    unwrapped RING_BITS r' g' (T + CAP) (T + CAP) K'.
Proof.
  intros Hu Hmod.
  destruct (reserve_commit_full handler r g ctx T K Hu Hmod)
    as (r1 & K1 & Hres & _ & Hcom & Hu2).
  destruct (ring_consume_batch_unwrapped handler _ _ _ _ _ ctx Hu2) as [Hcb Hu3].
  assert (exec_op RING_BITS handler OpConsumeBatch
            (mk_pstate (ring_commit r1 CAP) 0 ctx)
          = Some (mk_pstate (set_head (ring_commit r1 CAP) (tail (ring_commit r1 CAP))) 0
                    (invoke handler ctx (in_flight RING_BITS (ring_commit r1 CAP)))))
    as Hcons by (simpl; by rewrite Hcb).
  eexists _, _, _, K1. split; [|exact Hu3].
  unfold full_cycle.
  rewrite exec_ops_cons, Hres, exec_ops_cons, Hcom, exec_ops_cons, Hcons.
  reflexivity.
Qed.

Lemma full_cycles_run {C : Type} (handler : consume_handler_t C) k :
  forall r g ctx T K,
    unwrapped RING_BITS r g T T K -> T mod CAP = 0 ->
    exists r' g' ctx' K',
      exec_ops RING_BITS handler (full_cycles RING_BITS k) (mk_pstate r g ctx)
        = Some (mk_pstate r' g' ctx') /\
      unwrapped RING_BITS r' g' (T + Z.of_nat k * CAP) (T + Z.of_nat k * CAP) K'.
Proof.
  pose proof RING_CAPACITY_bounds as HC.
  induction k as [|k IH]; intros r g ctx T K Hu Hmod.
  - exists r, g, ctx, K. split; [done|].
    by rewrite Z.mul_0_l, Z.add_0_r.
  - destruct (full_cycle_run handler r g ctx T K Hu Hmod)
      as (r1 & g1 & ctx1 & K1 & Hrun1 & Hu1).
    destruct (IH r1 g1 ctx1 (T + CAP) K1 Hu1) as (r' & g' & ctx' & K' & Hrun & Hu').
    { rewrite <- Zplus_mod_idemp_l, Hmod, Z.add_0_l. apply Z_mod_same_full. }
    exists r', g', ctx', K'. split.
    + change (full_cycles RING_BITS (S k))
        with (full_cycle RING_BITS ++ full_cycles RING_BITS k).
      rewrite exec_ops_app, Hrun1. exact Hrun.
    + replace (T + Z.of_nat (S k) * CAP) with (T + CAP + Z.of_nat k * CAP) by lia.
      exact Hu'.
Qed.

(** After [2^64 / capacity - 1] full cycles and one more reserve of the
    whole ring, the paired commit wraps [tail] to 0 while [head] stays one
    ring below [2^64]. *)
Lemma wrapping_run_overflows :
  exists s1 s2 : pstate unit,
    exec_ops RING_BITS noop_handler (wrapping_run RING_BITS)
             (mk_pstate (ring_init RING_BITS) 0 tt) = Some s1 /\
    exec_op RING_BITS noop_handler (OpCommit CAP) s1 = Some s2 /\
    head (ps_ring s1) = 2 ^ 64 - CAP /\
    tail (ps_ring s1) = 2 ^ 64 - CAP /\
    head (ps_ring s2) = 2 ^ 64 - CAP /\
    tail (ps_ring s2) = 0.
Proof.
  pose proof RING_CAPACITY_bounds as HC.
  assert (2 ^ 64 = 2 ^ (64 - RING_BITS) * CAP) as Hpow.
  { rewrite RING_CAPACITY_pow, <- Z.pow_add_r by lia. f_equal. lia. }
  assert (1 <= 2 ^ (64 - RING_BITS)) as Hk.
  { change 1 with (2 ^ 0). apply Z.pow_le_mono_r; lia. }
  set (k := Z.to_nat (2 ^ (64 - RING_BITS) - 1)).
  assert (Z.of_nat k * CAP = 2 ^ 64 - CAP) as HT.
  { unfold k. rewrite Z2Nat.id by lia. lia. }
  destruct (full_cycles_run noop_handler k (ring_init RING_BITS) 0 tt 0 0
              ring_init_unwrapped) as (r & g & ctx & K & Hrun & Hu).
  { apply Z.mod_0_l. lia. }
  rewrite Z.add_0_l, HT in Hu.
  destruct (reserve_commit_full noop_handler r g ctx _ K Hu)
    as (r1 & K1 & Hres & Hu1 & Hcom & Hu2).
  { rewrite Hpow. replace (2 ^ (64 - RING_BITS) * CAP - CAP)
      with ((2 ^ (64 - RING_BITS) - 1) * CAP) by lia.
    apply Z_mod_mult. }
  exists (mk_pstate r1 CAP ctx), (mk_pstate (ring_commit r1 CAP) 0 ctx).
  split; [|split; [exact Hcom|]].
  - unfold wrapping_run. fold k. rewrite exec_ops_app, Hrun.
    change (exec_ops RING_BITS noop_handler [OpReserveN CAP] (mk_pstate r g ctx)
            = Some (mk_pstate r1 CAP ctx)).
    rewrite exec_ops_cons, Hres. reflexivity.
  - destruct Hu1 as (Ht1 & Hh1 & _). destruct Hu2 as (Ht2 & Hh2 & _).
    simpl ps_ring. rewrite Hh1, Ht1, Hh2, Ht2.
    replace (2 ^ 64 - CAP + CAP) with (2 ^ 64) by lia.
    rewrite wrap64_small by (unfold u64; lia). done.
Qed.
(** *** More on the ring operations *)

(** A ring that obeys the invariant modulo [2^64] has an unwrapped view. *)
Lemma inv_mod_unwrapped r :
  ring_wf RING_BITS r -> ring_inv_mod RING_BITS r ->
  exists T H K,
    unwrapped RING_BITS r 0 T H K /\ T - H = ring_len r.
Proof.
  intros (Ht & Hh & Hk & _) Hinv. unfold ring_inv_mod in Hinv.
  pose proof RING_CAPACITY_bounds as HC.
  pose proof (wrap64_u64 (tail r - head r)) as Hu.
  pose proof (wrap64_u64 (head r - cached_head r)) as Hs.
  exists (cached_head r + wrap64 (head r - cached_head r) + wrap64 (tail r - head r)),
         (cached_head r + wrap64 (head r - cached_head r)), (cached_head r).
  split; [|unfold ring_len; lia].
  unfold unwrapped, u64 in *. repeat split; try lia.
  - clear Hinv HC. wrap_lia.
  - clear Hinv HC. wrap_lia.
  - clear Hinv HC. wrap_lia.
Qed.

Lemma ring_len_unwrapped r g T H K :
  unwrapped RING_BITS r g T H K -> ring_len r = T - H.
Proof.
  intros (Ht & Hh & Hk & Ho1 & Ho2 & Hr & _). unfold ring_len.
  pose proof RING_CAPACITY_bounds.
  rewrite Ht, Hh, wrapped_distance; [done|].
  change (2 ^ 63) with 9223372036854775808 in *. lia.
Qed.

(** On every ring state that obeys the invariant, [ring_is_full] tells
    exactly when the producer meets backpressure: [ring_reserve] returns
    [NULL] and [producer_send] returns [false] iff the ring is full, that
    is iff [ring_len] is the capacity, which it never exceeds; and
    [ring_reserve_n(n)] returns [NULL] iff fewer than [n] slots are free. *)
Theorem ring_full_iff_backpressure r value n out :
  ring_wf RING_BITS r -> ring_inv_mod RING_BITS r ->
  1 <= n <= CAP ->
  ring_len r <= CAP /\
  (ring_is_full RING_BITS r = true <-> ring_len r = CAP) /\
  (ring_is_full RING_BITS r = true <-> (ring_reserve RING_BITS r).1 = None) /\
  (ring_is_full RING_BITS r = true <-> (producer_send RING_BITS r value).1 = false) /\
  ((ring_reserve_n RING_BITS r n out).1.1 = None <-> CAP - ring_len r < n).
Proof.
  intros Hwf Hinv Hn.
  destruct (inv_mod_unwrapped r Hwf Hinv) as (T & H & K & Hu & Hlen).
  pose proof Hu as (Ht & Hh & Hk & Ho1 & Ho2 & Hr & _).
  unfold ring_is_full. rewrite <- Hlen, Z.geb_leb.
  rewrite (ring_reserve_spec r 0 T H K Hu), (producer_send_spec r 0 T H K value Hu).
  rewrite (ring_reserve_n_spec r 0 T H K n out Hu) by lia.
  split; [lia|]. split; [|split; [|split]].
  - rewrite Z.leb_le. lia.
  - rewrite Z.leb_le.
    destruct (Z.ltb_spec (T - K) CAP); [|destruct (Z.ltb_spec (T - H) CAP)]; simpl;
      split; intros; first [lia | done].
  - rewrite Z.leb_le. destruct (Z.ltb_spec (T - H) CAP); simpl;
      split; intros; first [lia | done].
  - destruct (Z.leb_spec n (CAP - (T - K))); [|destruct (Z.leb_spec n (CAP - (T - H)))];
      simpl; split; intros; first [lia | done].
Qed.

(** [ring_consume_batch], on every ring (wrapped indices included), returns
    [ring_len], has the handler run over the items in flight, oldest first,
    and writes [head] only; it leaves the ring empty, so that a second batch
    right after it returns 0, invokes nothing and changes nothing. *)
Theorem ring_consume_batch_drains {C : Type} (handler : consume_handler_t C) r ctx ctx' :
  u64 (head r) -> u64 (tail r) ->
  ring_consume_batch RING_BITS r handler ctx =
    Some (ring_len r, invoke handler ctx (in_flight RING_BITS r), drained r) /\
  ring_is_empty (drained r) = true /\
  in_flight RING_BITS (drained r) = [] /\
  ring_consume_batch RING_BITS (drained r) handler ctx' = Some (0, ctx', drained r).
Proof.
  intros Hh Ht. split; [by apply ring_consume_batch_spec|].
  unfold ring_is_empty, ring_len, in_flight, ring_consume_batch, drained. simpl.
  rewrite Z.sub_diag. done.
Qed.

Lemma ring_len_bounds r : 0 <= ring_len r < 2 ^ 64.
Proof. apply wrap64_u64. Qed.

Lemma in_flight_split r count :
  u64 (head r) -> u64 (tail r) -> 0 <= count <= ring_len r ->
  in_flight RING_BITS r =
    slots_from RING_BITS (buffer r) (head r) count
      ++ in_flight RING_BITS (set_head r (wrap64 (head r + count))) /\
  ring_len (set_head r (wrap64 (head r + count))) = ring_len r - count.
Proof.
  intros Hh Ht Hc. unfold in_flight, ring_len in *. simpl.
  assert (wrap64 (tail r - wrap64 (head r + count)) = wrap64 (tail r - head r) - count)
    as -> by wrap_lia.
  split; [|done].
  rewrite <- slots_from_app by lia. f_equal. lia.
Qed.

(** [ring_consume_up_to], on every ring, consumes [min(ring_len, max_items)]
    items: the handler runs over that many of the oldest items in flight, in
    order; the others stay in flight, [ring_len] drops by the count
    returned, and only [head] is written. *)
Theorem ring_consume_up_to_bounded {C : Type} (handler : consume_handler_t C)
    r max_items ctx :
  u64 (head r) -> u64 (tail r) -> 0 <= max_items ->
  let count := Z.min (ring_len r) max_items in
  let r' := set_head r (wrap64 (head r + count)) in
  ring_consume_up_to RING_BITS r max_items handler ctx =
    Some (count,
          invoke handler ctx (take (Z.to_nat count) (in_flight RING_BITS r)),
          r') /\
  in_flight RING_BITS r' = drop (Z.to_nat count) (in_flight RING_BITS r) /\
  ring_len r' = ring_len r - count.
Proof.
  intros Hh Ht Hmax count r'.
  pose proof (ring_len_bounds r) as Hlen.
  assert (0 <= count <= ring_len r) as Hc by (unfold count; lia).
  destruct (in_flight_split r count Hh Ht Hc) as [Hsplit Hlen'].
  fold r' in Hsplit, Hlen'.
  assert (length (slots_from RING_BITS (buffer r) (head r) count) = Z.to_nat count)
    as Hl by apply length_slots_from.
  rewrite Hsplit, take_app_length', drop_app_length' by done.
  split; [|done].
  rewrite ring_consume_up_to_spec by done. fold (ring_len r).
  replace (Z.max 0 (Z.min (ring_len r) max_items)) with count by (unfold count; lia).
  done.
Qed.

(** A bounded consume followed by a batch consume is one batch consume:
    the handler ends in the same context, the ring in the same state, and
    the two counts add up to the batch's. *)
Theorem consume_up_to_then_batch {C : Type} (handler : consume_handler_t C)
    r max_items ctx :
  u64 (head r) -> u64 (tail r) -> 0 <= max_items ->
  ('(n1, ctx1, r1) ← ring_consume_up_to RING_BITS r max_items handler ctx;
   '(n2, ctx2, r2) ← ring_consume_batch RING_BITS r1 handler ctx1;
   Some (n1 + n2, ctx2, r2))
  = ring_consume_batch RING_BITS r handler ctx.
Proof.
  intros Hh Ht Hmax.
  pose proof (ring_len_bounds r) as Hlen.
  set (count := Z.min (ring_len r) max_items).
  assert (0 <= count <= ring_len r) as Hc by (unfold count; lia).
  destruct (in_flight_split r count Hh Ht Hc) as [Hsplit Hlen'].
  rewrite ring_consume_up_to_spec by done. fold (ring_len r).
  replace (Z.max 0 (Z.min (ring_len r) max_items)) with count by (unfold count; lia).
  simpl.
  rewrite ring_consume_batch_spec by (simpl; done || apply wrap64_u64). simpl.
  rewrite (ring_consume_batch_spec handler r) by done.
  unfold ring_len in Hlen'. simpl in Hlen'. rewrite Hlen'.
  fold (ring_len r). rewrite Hsplit, invoke_app.
  do 2 f_equal. f_equal. lia.
Qed.

Lemma in_flight_slots r g T H K :
  unwrapped RING_BITS r g T H K ->
  (in_flight RING_BITS r).*1 = (fun k => (H + k) mod CAP) <$> seqZ 0 (T - H).
Proof.
  intros Hu. rewrite (in_flight_unwrapped r g T H K Hu). unfold slots_from.
  rewrite <- list_fmap_compose. apply list_fmap_ext. intros i k _. simpl.
  apply slot_of_index.
Qed.

(** A successful [ring_reserve_n], on a ring state that obeys the
    invariant, grants between 1 and [n] slots that lie inside the buffer
    (the run [idx .. idx + contiguous - 1] does not cross its end) and among
    the free ones: none of them is the slot of an item still in flight. *)
Theorem ring_reserve_n_grants_free_slots r n c0 idx contiguous r' :
  ring_wf RING_BITS r -> ring_inv_mod RING_BITS r ->
  ring_reserve_n RING_BITS r n (Some c0) = (Some idx, Some contiguous, r') ->
  0 <= n ->
  1 <= contiguous <= n /\
  0 <= idx /\ idx + contiguous <= CAP /\
  contiguous <= CAP - ring_len r /\
  in_flight RING_BITS r' = in_flight RING_BITS r /\
  forall j, 0 <= j < contiguous -> idx + j ∉ (in_flight RING_BITS r).*1.
Proof.
  intros Hwf Hinv Hres Hn0.
  destruct (inv_mod_unwrapped r Hwf Hinv) as (T & H & K & Hu & Hlen).
  pose proof Hu as (Ht & Hh & Hk & Ho1 & Ho2 & Hr & _).
  pose proof RING_CAPACITY_bounds as HC.
  assert (n <> 0 /\ n <= CAP) as [Hn Hn'].
  { unfold ring_reserve_n in Hres. rewrite Z.gtb_ltb in Hres.
    destruct (Z.eqb_spec n 0), (Z.ltb_spec CAP n); simpl in Hres;
      try discriminate; lia. }
  assert (0 <= T mod CAP < CAP) as Hidx by (apply Z.mod_pos_bound; lia).
  rewrite (ring_reserve_n_spec r 0 T H K n (Some c0) Hu Hn Hn') in Hres.
  assert (idx = T mod CAP /\ contiguous = Z.min n (CAP - T mod CAP) /\
          n <= CAP - (T - H) /\ in_flight RING_BITS r' = in_flight RING_BITS r)
    as (-> & -> & Hfree & Hfl).
  { destruct (Z.leb_spec n (CAP - (T - K)));
      [|destruct (Z.leb_spec n (CAP - (T - H)))]; simplify_eq;
      repeat split; first [done | lia]. }
  rewrite <- Hlen. repeat split; try lia; [done|].
  intros j Hj. rewrite (in_flight_slots r 0 T H K Hu).
  intros (k & Heq & [Hk0 Hk1]%elem_of_seqZ)%list_elem_of_fmap.
  assert (T mod CAP + j = (H + (T - H + j)) mod CAP) as Hslot.
  { replace (H + (T - H + j)) with (T + j) by lia.
    rewrite <- Zplus_mod_idemp_l. symmetry. apply Z.mod_small. lia. }
  rewrite Hslot in Heq.
  apply (mod_cap_distinct H k (T - H + j)); [lia | lia | done].
Qed.

(** Reserving one slot through [ring_reserve_n] is [ring_reserve]: on
    every ring the two return the same slot or both [NULL], and leave the
    ring in the same state; the contiguous count stored on success is 1. *)
Theorem ring_reserve_n_one r out :
  ring_reserve_n RING_BITS r 1 out =
    ((ring_reserve RING_BITS r).1,
     match (ring_reserve RING_BITS r).1, out with
     | Some _, Some _ => Some 1
     | _, _ => out
     end,
     (ring_reserve RING_BITS r).2).
Proof.
  pose proof RING_CAPACITY_bounds as HC.
  pose proof (land_mask_bounds (tail r)) as Hidx.
  unfold ring_reserve_n, ring_reserve.
  destruct (Z.eqb_spec 1 0) as [?|_]; [lia|]. rewrite Z.gtb_ltb.
  destruct (Z.ltb_spec CAP 1) as [?|_]; [lia|]. simpl.
  rewrite (wrap64_small (CAP - Z.land (tail r) MASK))
    by (unfold u64; change (2 ^ 63) with 9223372036854775808 in *;
        change (2 ^ 64) with 18446744073709551616; lia).
  assert ((if CAP - Z.land (tail r) MASK >? 1 then 1
           else CAP - Z.land (tail r) MASK) = 1) as ->.
  { rewrite Z.gtb_ltb. destruct (Z.ltb_spec 1 (CAP - Z.land (tail r) MASK)); lia. }
  rewrite !Z.geb_leb.
  destruct (Z.ltb_spec (wrap64 (CAP - wrap64 (tail r - cached_head r))) 1),
           (Z.leb_spec 1 (wrap64 (CAP - wrap64 (tail r - cached_head r))));
    try lia; simpl.
  - destruct (Z.ltb_spec (wrap64 (CAP - wrap64 (tail r - head r))) 1); simpl;
      by destruct out.
  - by destruct out.
Qed.

(** Reserving is idempotent: as long as nothing is committed, a second
    [ring_reserve] (or [ring_reserve_n] with the same [n]) returns what the
    first returned and leaves the ring as the first left it.  This holds on
    every ring state. *)
Theorem ring_reserve_idempotent r n out :
  ring_reserve RING_BITS (ring_reserve RING_BITS r).2 =
    ((ring_reserve RING_BITS r).1, (ring_reserve RING_BITS r).2) /\
  ring_reserve_n RING_BITS (ring_reserve_n RING_BITS r n out).2 n
                 (ring_reserve_n RING_BITS r n out).1.2 =
    ring_reserve_n RING_BITS r n out.
Proof.
  split.
  - unfold ring_reserve. destruct r as [t k h ct a cl b]. simpl.
    destruct (wrap64 (RING_CAPACITY RING_BITS - wrap64 (t - k)) >=? 1) eqn:Hfast; simpl.
    + by rewrite Hfast.
    + destruct (wrap64 (RING_CAPACITY RING_BITS - wrap64 (t - h)) <? 1) eqn:Hslow;
        simpl.
      * destruct (wrap64 (RING_CAPACITY RING_BITS - wrap64 (t - h)) >=? 1) eqn:Hfast';
          simpl; [|by rewrite Hslow].
        rewrite Z.geb_leb in Hfast'. apply Z.leb_le in Hfast'.
        apply Z.ltb_lt in Hslow. lia.
      * destruct (wrap64 (RING_CAPACITY RING_BITS - wrap64 (t - h)) >=? 1) eqn:Hfast';
          simpl; [done|by rewrite Hslow].
  - destruct ((n =? 0) || (n >? CAP)) eqn:Hbad.
    { assert (ring_reserve_n RING_BITS r n out = (None, out, r)) as Hres
        by (unfold ring_reserve_n; by rewrite Hbad).
      rewrite Hres. simpl. exact Hres. }
    destruct (wrap64 (CAP - wrap64 (tail r - cached_head r)) <? n) eqn:Hfast.
    + destruct (wrap64 (CAP - wrap64 (tail r - head r)) <? n) eqn:Hslow.
      * assert (ring_reserve_n RING_BITS r n out
                = (None, out, set_cached_head r (head r))) as Hres
          by (unfold ring_reserve_n; rewrite Hbad, Hfast; simpl; by rewrite Hslow).
        rewrite Hres. unfold ring_reserve_n. rewrite Hbad. simpl.
        by rewrite !Hslow.
      * assert (ring_reserve_n RING_BITS r n out
                = (Some (Z.land (tail r) MASK),
                   match out with
                   | Some _ =>
                       Some (if wrap64 (CAP - Z.land (tail r) MASK) >? n then n
                             else wrap64 (CAP - Z.land (tail r) MASK))
                   | None => None
                   end,
                   set_cached_head r (head r))) as Hres
          by (unfold ring_reserve_n; rewrite Hbad, Hfast; simpl; by rewrite Hslow).
        rewrite Hres. unfold ring_reserve_n. rewrite Hbad. simpl.
        rewrite !Hslow. by destruct out.
    + assert (ring_reserve_n RING_BITS r n out
              = (Some (Z.land (tail r) MASK),
                 match out with
                 | Some _ =>
                     Some (if wrap64 (CAP - Z.land (tail r) MASK) >? n then n
                           else wrap64 (CAP - Z.land (tail r) MASK))
                 | None => None
                 end,
                 r)) as Hres
        by (unfold ring_reserve_n; by rewrite Hbad, Hfast).
      rewrite Hres. unfold ring_reserve_n. rewrite Hbad. simpl.
      rewrite !Hfast. by destruct out.
Qed.


(** *** The benchmark's write pattern *)

Lemma write_unrolled_loop_spec slots sent contiguous fuel :
  forall b i,
    0 <= i <= contiguous -> contiguous < 2 ^ 64 - 4 ->
    (Z.to_nat (contiguous - i) <= fuel)%nat ->
    exists i',
      i <= i' <= contiguous /\
      write_unrolled_loop fuel b slots sent contiguous i =
        Some (foldl (fun b j => store b (slots + j) (wrap64 (sent + j))) b
                    (seqZ i (i' - i)), i').
Proof.
  induction fuel as [|fuel IH]; intros b i Hi Hc Hf; simpl.
  - assert (i = contiguous) as -> by lia.
    rewrite wrap64_small by (unfold u64; change (2 ^ 64) with 18446744073709551616 in *; lia).
    destruct (Z.leb_spec (contiguous + 4) contiguous); [lia|].
    exists contiguous. by rewrite Z.sub_diag.
  - rewrite (wrap64_small (i + 4))
      by (unfold u64; change (2 ^ 64) with 18446744073709551616 in *; lia).
    destruct (Z.leb_spec (i + 4) contiguous) as [Hgo|Hstop].
    + rewrite !(wrap64_small (i + _))
        by (unfold u64; change (2 ^ 64) with 18446744073709551616 in *; lia).
      rewrite !wrap64_add_l.
      match goal with
      | |- context [write_unrolled_loop fuel ?b4 _ _ _ _] =>
          destruct (IH b4 (i + 4)) as (i' & Hi' & ->); [lia | done | lia |]
      end.
      exists i'. split; [lia|]. f_equal. f_equal.
      rewrite (seqZ_cons i) by lia. rewrite (seqZ_cons (Z.succ i)) by lia.
      rewrite (seqZ_cons (Z.succ (Z.succ i))) by lia.
      rewrite (seqZ_cons (Z.succ (Z.succ (Z.succ i)))) by lia. simpl.
      replace (Z.succ i) with (i + 1) by lia.
      replace (Z.succ (i + 1)) with (i + 2) by lia.
      replace (Z.succ (i + 2)) with (i + 3) by lia.
      replace (Z.succ (i + 3)) with (i + 4) by lia.
      replace (sent + i + 1) with (sent + (i + 1)) by lia.
      replace (sent + i + 2) with (sent + (i + 2)) by lia.
      replace (sent + i + 3) with (sent + (i + 3)) by lia.
      do 2 f_equal. lia.
    + exists i. split; [lia|]. by rewrite Z.sub_diag.
Qed.

Lemma write_rest_loop_spec slots sent contiguous fuel :
  forall b i,
    0 <= i <= contiguous -> contiguous < 2 ^ 64 ->
    (Z.to_nat (contiguous - i) <= fuel)%nat ->
    write_rest_loop fuel b slots sent contiguous i =
      Some (foldl (fun b j => store b (slots + j) (wrap64 (sent + j))) b
                  (seqZ i (contiguous - i)), contiguous).
Proof.
  induction fuel as [|fuel IH]; intros b i Hi Hc Hf; simpl.
  - assert (i = contiguous) as -> by lia.
    destruct (Z.ltb_spec contiguous contiguous); [lia|]. by rewrite Z.sub_diag.
  - destruct (Z.ltb_spec i contiguous) as [Hgo|Hstop].
    + rewrite (wrap64_small (i + 1))
        by (unfold u64; change (2 ^ 64) with 18446744073709551616 in *; lia).
      rewrite IH by lia. rewrite (seqZ_cons i) by lia. simpl.
      do 3 f_equal. f_equal; lia.
    + assert (i = contiguous) as -> by lia. by rewrite Z.sub_diag.
Qed.

Lemma write_pattern_spec b slots sent contiguous :
  0 <= contiguous < 2 ^ 64 - 4 ->
  write_pattern b slots sent contiguous = Some (write_each b slots sent contiguous).
Proof.
  intros Hc. unfold write_pattern, write_each.
  destruct (write_unrolled_loop_spec slots sent contiguous
              (Z.to_nat contiguous) b 0) as (i & Hi & ->); [lia | lia | lia |].
  simpl. rewrite write_rest_loop_spec by lia. simpl. f_equal.
  rewrite <- foldl_app. f_equal.
  rewrite Z.sub_0_r.
  replace (seqZ 0 contiguous) with (seqZ 0 (i + (contiguous - i))) by (f_equal; lia).
  by rewrite seqZ_app by lia.
Qed.

Lemma write_each_S b slots sent (n : nat) :
  write_each b slots sent (Z.of_nat (S n)) =
    store (write_each b slots sent (Z.of_nat n))
          (slots + Z.of_nat n) (wrap64 (sent + Z.of_nat n)).
Proof. unfold write_each. by rewrite seqZ_S, foldl_snoc, Z.add_0_l. Qed.

Lemma length_write_each b slots sent contiguous :
  length (write_each b slots sent contiguous) = length b.
Proof.
  destruct (Z.le_gt_cases 0 contiguous) as [Hpos|Hneg].
  - rewrite <- (Z2Nat.id contiguous) by done.
    induction (Z.to_nat contiguous) as [|n IH]; [done|].
    rewrite write_each_S. unfold store. by rewrite length_insert.
  - unfold write_each. by rewrite seqZ_nil by lia.
Qed.

Lemma load_write_each b slots sent contiguous x :
  0 <= slots -> 0 <= contiguous -> slots + contiguous <= Z.of_nat (length b) ->
  0 <= x ->
  load (write_each b slots sent contiguous) x =
    if decide (slots <= x < slots + contiguous)
    then wrap64 (sent + (x - slots)) else load b x.
Proof.
  intros Hs Hc Hlen Hx. revert Hlen.
  rewrite <- (Z2Nat.id contiguous) by done.
  induction (Z.to_nat contiguous) as [|n IH]; intros Hlen.
  - destruct (decide (slots <= x < slots + Z.of_nat 0)); [lia | done].
  - rewrite write_each_S.
    destruct (decide (x = slots + Z.of_nat n)) as [->|Hne].
    + unfold load, store. rewrite list_lookup_insert_eq
        by (rewrite length_write_each; lia).
      clear IH. destruct (decide (_ <= _ < _)); [|lia]. simpl. f_equal. lia.
    + unfold load, store. rewrite list_lookup_insert_ne by lia.
      fold (load (write_each b slots sent (Z.of_nat n)) x).
      rewrite IH by lia.
      destruct (decide (slots <= x < slots + Z.of_nat n)),
               (decide (slots <= x < slots + Z.of_nat (S n))); (lia || done).
Qed.

(** The two write loops of [producer_thread], the 4-way unrolled one and the
    remainder loop, together write [sent + j] to [slots[j]] for every [j]
    below [contiguous], exactly as the plain loop would, and leave every
    other slot as it was; they terminate whatever [contiguous] is modulo 4. *)
Theorem write_pattern_writes b slots sent contiguous :
  0 <= slots -> 0 <= contiguous < 2 ^ 64 - 4 ->
  slots + contiguous <= Z.of_nat (length b) ->
  exists b',
    write_pattern b slots sent contiguous = Some b' /\
    b' = write_each b slots sent contiguous /\
    length b' = length b /\
    (forall j, 0 <= j < contiguous -> load b' (slots + j) = wrap64 (sent + j)) /\
    (forall x, 0 <= x -> ~ (slots <= x < slots + contiguous) -> load b' x = load b x).
Proof.
  intros Hs Hc Hlen. exists (write_each b slots sent contiguous).
  split; [by apply write_pattern_spec|]. split; [done|].
  split; [apply length_write_each|]. split.
  - intros j Hj. rewrite load_write_each by lia.
    destruct (decide (_ <= _ < _)); [|lia]. f_equal. lia.
  - intros x Hx Hout. rewrite load_write_each by lia.
    destruct (decide (_ <= _ < _)); [lia | done].
Qed.

(** *** The benchmark's threads *)

Lemma slots_from_write_each b H n slots sent c :
  0 <= n -> 0 <= c -> n + c <= CAP ->
  slots = (H + n) mod CAP -> slots + c <= CAP ->
  length b = Z.to_nat CAP ->
  slots_from RING_BITS (write_each b slots sent c) (wrap64 H) (n + c) =
    slots_from RING_BITS b (wrap64 H) n
      ++ ((fun j => (slots + j, wrap64 (sent + j))) <$> seqZ 0 c).
Proof.
  intros Hn Hc Hfit Hslots Hend Hlen.
  pose proof RING_CAPACITY_bounds as HC.
  assert (0 <= slots < CAP) as Hs by (subst slots; apply Z.mod_pos_bound; lia).
  assert (forall j, 0 <= j < c -> (H + (n + j)) mod CAP = slots + j) as Hslot.
  { intros j Hj. replace (H + (n + j)) with ((H + n) + j) by lia.
    rewrite <- Zplus_mod_idemp_l, <- Hslots. apply Z.mod_small. lia. }
  unfold slots_from. rewrite seqZ_app by lia. rewrite fmap_app. f_equal.
  - apply list_fmap_ext. intros i k [-> Hi]%lookup_seqZ. simpl.
    rewrite Z.add_0_l, slot_of_index. f_equal.
    rewrite load_write_each; [| lia | lia | lia | apply Z.mod_pos_bound; lia].
    destruct (decide (slots <= (H + Z.of_nat i) mod CAP < slots + c)) as [Hin|]; [|done].
    exfalso.
    pose proof (Hslot ((H + Z.of_nat i) mod CAP - slots) ltac:(lia)) as Heq.
    replace (slots + ((H + Z.of_nat i) mod CAP - slots))
      with ((H + Z.of_nat i) mod CAP) in Heq by lia.
    apply (mod_cap_distinct H (Z.of_nat i) (n + ((H + Z.of_nat i) mod CAP - slots)));
      [lia | lia | done].
  - rewrite Z.add_0_l.
    replace (seqZ n c) with (Z.add n <$> seqZ 0 c)
      by (rewrite fmap_add_seqZ; f_equal; lia).
    rewrite <- list_fmap_compose. apply list_fmap_ext.
    intros i k [-> Hi]%lookup_seqZ. simpl.
    rewrite slot_of_index, Hslot by lia.
    rewrite load_write_each by lia.
    destruct (decide (_ <= _ < _)); [|lia]. do 2 f_equal. lia.
Qed.

Lemma producer_iteration_step messages batch r sent T H K :
  unwrapped RING_BITS r 0 T H K ->
  length (buffer r) = Z.to_nat CAP ->
  u64 messages -> 0 <= sent < messages -> 1 <= batch < 2 ^ 64 ->
  exists r' c K',
    producer_iteration RING_BITS messages batch r sent = Some (r', sent + c) /\
    unwrapped RING_BITS r' 0 (T + c) H K' /\
    length (buffer r') = Z.to_nat CAP /\
    0 <= c <= Z.min batch (messages - sent) /\
    (c = 0 <-> CAP - (T - H) < Z.min batch (messages - sent)) /\
    in_flight RING_BITS r' =
      in_flight RING_BITS r ++ ((fun j => (T mod CAP + j, sent + j)) <$> seqZ 0 c).
Proof.
  intros Hu Hlen Hm Hsent Hbatch.
  pose proof RING_CAPACITY_bounds as HC.
  pose proof Hu as (Ht & Hh & Hk & Ho1 & Ho2 & Hr & _).
  assert (0 <= T mod CAP < CAP) as Hidx by (apply Z.mod_pos_bound; lia).
  unfold producer_iteration.
  rewrite (wrap64_small (messages - sent)) by (unfold u64 in *; lia).
  assert ((if batch >? messages - sent then messages - sent else batch)
          = Z.min batch (messages - sent)) as ->.
  { rewrite Z.gtb_ltb. destruct (Z.ltb_spec (messages - sent) batch); lia. }
  set (want := Z.min batch (messages - sent)).
  assert (1 <= want) as Hwant by (unfold want; lia).
  assert (forall r1 K1, unwrapped RING_BITS r1 0 T H K1 -> buffer r1 = buffer r ->
            in_flight RING_BITS r1 = in_flight RING_BITS r) as Hsame.
  { intros r1 K1 Hu1 Hb.
    by rewrite (in_flight_unwrapped _ _ _ _ _ Hu1), (in_flight_unwrapped _ _ _ _ _ Hu), Hb. }
  (* a reserve that fails ends the iteration with the ring's indices as they were *)
  assert (forall r1 K1, unwrapped RING_BITS r1 0 T H K1 -> buffer r1 = buffer r ->
            CAP - (T - H) < want ->
            exists r' c K',
              Some (r1, sent) = Some (r', sent + c) /\
              unwrapped RING_BITS r' 0 (T + c) H K' /\
              length (buffer r') = Z.to_nat CAP /\
              0 <= c <= want /\
              (c = 0 <-> CAP - (T - H) < want) /\
              in_flight RING_BITS r' =
                in_flight RING_BITS r
                  ++ ((fun j => (T mod CAP + j, sent + j)) <$> seqZ 0 c))
    as Hfail.
  { intros r1 K1 Hu1 Hb Hfull. exists r1, 0, K1.
    rewrite !Z.add_0_r. split; [done|]. split; [done|].
    split; [by rewrite Hb|]. split; [lia|]. split; [done|].
    by rewrite (Hsame r1 K1 Hu1 Hb), app_nil_r. }
  (* a reserve that succeeds is followed by the writes and the commit *)
  assert (forall r1 K1, unwrapped RING_BITS r1 0 T H K1 -> buffer r1 = buffer r ->
            want <= CAP - (T - K1) ->
            exists r' c K',
              (b ← write_pattern (buffer r1) (T mod CAP) sent
                     (Z.min want (CAP - T mod CAP));
               Some (ring_commit (set_buffer r1 b) (Z.min want (CAP - T mod CAP)),
                     wrap64 (sent + Z.min want (CAP - T mod CAP))))
                = Some (r', sent + c) /\
              unwrapped RING_BITS r' 0 (T + c) H K' /\
              length (buffer r') = Z.to_nat CAP /\
              0 <= c <= want /\
              (c = 0 <-> CAP - (T - H) < want) /\
              in_flight RING_BITS r' =
                in_flight RING_BITS r
                  ++ ((fun j => (T mod CAP + j, sent + j)) <$> seqZ 0 c))
    as Hok.
  { intros r1 K1 Hu1 Hb Hroom.
    pose proof Hu1 as (Ht1 & Hh1 & Hk1 & Ho11 & Ho12 & Hr1 & _).
    set (c := Z.min want (CAP - T mod CAP)).
    assert (1 <= c <= want) as Hc by (unfold c; lia).
    exists (ring_commit (set_buffer r1 (write_each (buffer r1) (T mod CAP) sent c)) c),
           c, K1.
    rewrite write_pattern_spec
      by (change (2 ^ 63) with 9223372036854775808 in *;
          change (2 ^ 64) with 18446744073709551616; lia).
    simpl. rewrite (wrap64_small (sent + c)) by (unfold u64 in *; unfold want in *; lia).
    split; [done|].
    assert (unwrapped RING_BITS
              (ring_commit (set_buffer r1 (write_each (buffer r1) (T mod CAP) sent c)) c)
              0 (T + c) H K1) as Hu'.
    { unfold unwrapped. simpl. rewrite Ht1, wrap64_add_l. repeat split; (done || lia). }
    split; [done|]. split; [by rewrite length_write_each, Hb|].
    split; [lia|]. split; [lia|].
    rewrite (in_flight_unwrapped _ _ _ _ _ Hu'), (in_flight_unwrapped _ _ _ _ _ Hu).
    simpl. rewrite Hb.
    replace (T + c - H) with ((T - H) + c) by lia.
    rewrite (slots_from_write_each (buffer r) H (T - H) (T mod CAP) sent c);
      [| lia | lia | lia | f_equal; lia | unfold c; lia | done].
    f_equal. apply list_fmap_ext. intros i j [-> Hj]%lookup_seqZ. simpl.
    f_equal. apply wrap64_small. unfold u64 in *. unfold want in *. lia. }
  destruct (decide (want <= CAP)) as [Hfit|Hbig].
  - rewrite (ring_reserve_n_spec r 0 T H K want (Some 0) Hu) by lia.
    destruct (Z.leb_spec want (CAP - (T - K))).
    + apply (Hok r K); [done | done | lia].
    + destruct (Z.leb_spec want (CAP - (T - H))).
      * apply (Hok (set_cached_head r (head r)) H); [|done|lia].
        apply (unwrapped_refresh r 0 0 T H K); [done | lia].
      * apply (Hfail (set_cached_head r (head r)) H); [|done|lia].
        apply (unwrapped_refresh r 0 0 T H K); [done | lia].
  - assert (ring_reserve_n RING_BITS r want (Some 0) = (None, Some 0, r)) as ->.
    { unfold ring_reserve_n. rewrite Z.gtb_ltb.
      destruct (Z.eqb_spec want 0), (Z.ltb_spec CAP want); simpl; first [done | lia]. }
    apply (Hfail r K); [done | done | lia].
Qed.

(** One iteration of the producer thread's loop, on a ring state that obeys
    the invariant and while messages remain: it publishes [c] messages,
    [c] being 0 exactly when the ring has fewer free slots than the batch
    asked for ([min(batch, messages - sent)]), and otherwise at least 1 and
    at most that batch; these are the values [sent .. sent + c - 1], which
    join the items in flight in this order behind those already there;
    [sent] advances by [c] and never passes [messages], and the ring obeys
    the invariant again. *)
Theorem producer_iteration_publishes messages batch r sent :
  ring_wf RING_BITS r -> ring_inv_mod RING_BITS r ->
  u64 messages -> 0 <= sent < messages -> 1 <= batch < 2 ^ 64 ->
  exists r' c,
    producer_iteration RING_BITS messages batch r sent = Some (r', sent + c) /\
    0 <= c <= Z.min batch (messages - sent) /\
    (c = 0 <-> CAP - ring_len r < Z.min batch (messages - sent)) /\
    (in_flight RING_BITS r').*2 = (in_flight RING_BITS r).*2 ++ seqZ sent c /\
    ring_len r' = ring_len r + c /\
    ring_wf RING_BITS r' /\ ring_inv_mod RING_BITS r'.
Proof.
  intros Hwf Hinv Hm Hsent Hbatch.
  destruct (inv_mod_unwrapped r Hwf Hinv) as (T & H & K & Hu & Hlen).
  destruct Hwf as (_ & _ & _ & Hbuf).
  destruct (producer_iteration_step messages batch r sent T H K Hu Hbuf Hm Hsent Hbatch)
    as (r' & c & K' & Hrun & Hu' & Hbuf' & Hc & Hzero & Hfl).
  exists r', c. split; [done|]. split; [done|]. rewrite <- Hlen. split; [done|].
  split; [|split; [|split]].
  - rewrite Hfl, fmap_app. f_equal. rewrite <- list_fmap_compose.
    replace (seqZ sent c) with (Z.add sent <$> seqZ 0 c)
      by (rewrite fmap_add_seqZ; f_equal; lia).
    by apply list_fmap_ext.
  - rewrite (ring_len_unwrapped _ _ _ _ _ Hu'). lia.
  - destruct Hu' as (Ht' & Hh' & Hk' & _). unfold ring_wf.
    rewrite Ht', Hh', Hk'. repeat split; try apply wrap64_u64. done.
  - by eapply unwrapped_inv_mod.
Qed.

Lemma bench_run_invariant messages batch sched :
  u64 messages -> 1 <= batch < 2 ^ 64 ->
  forall s T H K,
    unwrapped RING_BITS (bs_ring s) 0 T H K ->
    length (buffer (bs_ring s)) = Z.to_nat CAP ->
    0 <= bs_count s -> bs_count s + (T - H) = bs_sent s -> bs_sent s <= messages ->
    (in_flight RING_BITS (bs_ring s)).*2 = seqZ (bs_count s) (T - H) ->
    exists s' T' H' K',
      bench_run RING_BITS messages batch sched s = Some s' /\
      unwrapped RING_BITS (bs_ring s') 0 T' H' K' /\
      length (buffer (bs_ring s')) = Z.to_nat CAP /\
      0 <= bs_count s' /\ bs_count s' + (T' - H') = bs_sent s' /\
      bs_sent s' <= messages /\
      (in_flight RING_BITS (bs_ring s')).*2 = seqZ (bs_count s') (T' - H').
Proof.
  intros Hm Hbatch.
  induction sched as [|t sched IH]; intros [r sent count] T H K; simpl;
    intros Hu Hbuf Hcount Hcons Hsent Hfl.
  - exists (mk_bench r sent count), T, H, K. by repeat (split; [done|]).
  - pose proof Hu as (_ & _ & _ & Ho1 & Ho2 & _). destruct t; simpl.
    + destruct (Z.ltb_spec sent messages) as [Hmore|Hdone]; simpl.
      * destruct (producer_iteration_step messages batch r sent T H K Hu Hbuf Hm)
          as (r' & c & K' & -> & Hu' & Hbuf' & Hc & _ & Hfl'); [lia | done |].
        simpl. apply (IH (mk_bench r' (sent + c) count) (T + c) H K'); simpl;
          [done | done | done | lia | lia |].
        rewrite Hfl', fmap_app, Hfl, <- list_fmap_compose.
        replace (T + c - H) with ((T - H) + c) by lia.
        rewrite seqZ_app by lia. f_equal.
        replace (seqZ (count + (T - H)) c) with (Z.add sent <$> seqZ 0 c)
          by (rewrite fmap_add_seqZ; f_equal; lia).
        by apply list_fmap_ext.
      * by apply (IH (mk_bench r sent count) T H K).
    + destruct (ring_consume_batch_unwrapped noop_handler r 0 T H K tt Hu) as [-> Hu'].
      simpl.
      rewrite (wrap64_small (count + (T - H))) by (unfold u64 in *; lia).
      apply (IH (mk_bench (set_head r (tail r)) sent (count + (T - H))) T T K); simpl;
        [done | done | lia | lia | done |].
      rewrite (in_flight_unwrapped _ _ _ _ _ Hu'), Z.sub_diag. done.
Qed.

(** The producer and consumer threads of the benchmark on one ring,
    interleaved in any order of whole loop iterations from the initialised
    ring: every iteration terminates, no message is lost or duplicated (the
    consumer's count plus the ring's length is the producer's [sent]), the
    values in flight are the consecutive integers from the consumer's count
    on, in order, and [sent] never exceeds the number of messages to send. *)
Theorem bench_run_conserves messages batch sched :
  u64 messages -> 1 <= batch < 2 ^ 64 ->
  exists s,
    bench_run RING_BITS messages batch sched (mk_bench (ring_init RING_BITS) 0 0)
      = Some s /\
    0 <= bs_count s /\
    bs_count s + ring_len (bs_ring s) = bs_sent s /\
    bs_sent s <= messages /\
    (in_flight RING_BITS (bs_ring s)).*2 = seqZ (bs_count s) (ring_len (bs_ring s)) /\
    ring_wf RING_BITS (bs_ring s) /\ ring_inv_mod RING_BITS (bs_ring s).
Proof.
  intros Hm Hbatch.
  destruct (bench_run_invariant messages batch sched Hm Hbatch
              (mk_bench (ring_init RING_BITS) 0 0) 0 0 0)
    as (s & T & H & K & Hrun & Hu & Hbuf & Hcount & Hcons & Hsent & Hfl); simpl.
  - apply ring_init_unwrapped.
  - by rewrite length_replicate.
  - done.
  - done.
  - unfold u64 in Hm. lia.
  - done.
  - exists s. rewrite (ring_len_unwrapped _ _ _ _ _ Hu).
    repeat (split; [done|]). split; [|by eapply unwrapped_inv_mod].
    destruct Hu as (Ht & Hh & Hk & _). unfold ring_wf.
    rewrite Ht, Hh, Hk. repeat split; try apply wrap64_u64. done.
Qed.

Lemma consumer_thread_loop_S fuel r count :
  u64 (head r) -> u64 (tail r) ->
  consumer_thread_loop RING_BITS (S fuel) r count =
    if (ring_len r =? 0) && closed r
    then Some (drained r, wrap64 (count + ring_len r))
    else consumer_thread_loop RING_BITS fuel (drained r) (wrap64 (count + ring_len r)).
Proof.
  intros Hh Ht. cbn [consumer_thread_loop].
  rewrite ring_consume_batch_spec by done. cbn [mbind option_bind].
  fold (ring_len r). fold (drained r).
  assert (ring_is_empty (drained r) = true) as ->
    by (unfold ring_is_empty, ring_len, drained; simpl; by rewrite Z.sub_diag).
  unfold ring_is_closed. rewrite andb_true_r.
  assert (closed (drained r) = closed r) as -> by done.
  by destruct (ring_len r =? 0), (closed r).
Qed.

Lemma consumer_thread_loop_open fuel :
  forall r count,
    u64 (head r) -> u64 (tail r) -> closed r = false ->
    consumer_thread_loop RING_BITS fuel r count = None.
Proof.
  induction fuel as [|fuel IH]; intros r count Hh Ht Hopen; [done|].
  rewrite consumer_thread_loop_S, Hopen, andb_false_r by done.
  apply IH; done.
Qed.

(** The consumer thread alone on a ring: if the ring is closed, its loop
    ends within two iterations, having drained the ring, with
    [messages_received] equal to the ring's length; if the ring is not
    closed, the loop does not end, however many iterations it is given: an
    empty ring alone never makes the consumer stop. *)
Theorem consumer_thread_stops_iff_closed r fuel :
  u64 (head r) -> u64 (tail r) ->
  (closed r = true -> (2 <= fuel)%nat ->
     consumer_thread_loop RING_BITS fuel r 0 = Some (drained r, ring_len r)) /\
  (closed r = false -> consumer_thread_loop RING_BITS fuel r 0 = None).
Proof.
  intros Hh Ht. split; [|by apply consumer_thread_loop_open].
  intros Hclosed Hfuel. destruct fuel as [|[|fuel]]; [lia | lia |].
  pose proof (ring_len_bounds r) as Hlen.
  rewrite consumer_thread_loop_S, Hclosed, andb_true_r, Z.add_0_l by done.
  rewrite (wrap64_small (ring_len r)) by done.
  destruct (Z.eqb_spec (ring_len r) 0) as [Hz|Hnz]; [done|].
  rewrite consumer_thread_loop_S by done.
  assert (ring_len (drained r) = 0) as ->
    by (unfold ring_len, drained; simpl; by rewrite Z.sub_diag).
  assert (closed (drained r) = true) as -> by done.
  rewrite Z.add_0_r, wrap64_small by done. done.
Qed.
End RingFacts.

(** ** The channel *)

Lemma ring_close_reserve RING_BITS r :
  (ring_reserve RING_BITS (ring_close r)).1 = (ring_reserve RING_BITS r).1 /\
  (ring_reserve RING_BITS (ring_close r)).2 = ring_close (ring_reserve RING_BITS r).2.
Proof.
  destruct r. unfold ring_reserve, ring_close. simpl.
  repeat case_match; simplify_eq; simpl; first [done | congruence].
Qed.

Lemma ring_close_send RING_BITS r value :
  (producer_send RING_BITS (ring_close r) value).1 = (producer_send RING_BITS r value).1 /\
  (producer_send RING_BITS (ring_close r) value).2
    = ring_close (producer_send RING_BITS r value).2.
Proof.
  destruct r. unfold producer_send, ring_reserve, ring_close. simpl.
  repeat case_match; simplify_eq; simpl; first [done | congruence].
Qed.

Lemma channel_close_loop n ch :
  let ch' := foldl (fun ch i => set_rings ch (alter ring_close (Z.to_nat i) (rings ch)))
                   ch (seqZ 0 (Z.of_nat n)) in
  producer_count ch' = producer_count ch /\
  ch_closed ch' = ch_closed ch /\
  forall i : nat,
    rings ch' !! i =
      if decide (i < n)%nat then ring_close <$> rings ch !! i else rings ch !! i.
Proof.
  induction n as [|n IH]; cbv zeta in *.
  - split; [done|]. split; [done|]. intros i.
    destruct (decide (i < 0)%nat); [lia | done].
  - destruct IH as (IHc & IHf & IHr).
    rewrite seqZ_S, foldl_snoc. simpl. rewrite Z.add_0_l, Nat2Z.id.
    split; [done|]. split; [done|]. intros i.
    destruct (decide (i = n)) as [->|Hne].
    + rewrite list_lookup_alter_eq, IHr.
      destruct (decide (n < n)%nat), (decide (n < S n)%nat); (lia || done).
    + rewrite list_lookup_alter_ne, IHr by done.
      destruct (decide (i < n)%nat), (decide (i < S n)%nat); (lia || done).
Qed.

Lemma channel_close_spec ch :
  producer_count (channel_close ch) = producer_count ch /\
  ch_closed (channel_close ch) = true /\
  forall i : nat,
    rings (channel_close ch) !! i =
      if decide (Z.of_nat i < producer_count ch)
      then ring_close <$> rings ch !! i else rings ch !! i.
Proof.
  unfold channel_close. simpl.
  destruct (Z.le_gt_cases 0 (producer_count ch)) as [Hpos|Hneg].
  - replace (seqZ 0 (producer_count ch))
      with (seqZ 0 (Z.of_nat (Z.to_nat (producer_count ch))))
      by (by rewrite Z2Nat.id).
    destruct (channel_close_loop (Z.to_nat (producer_count ch)) (set_ch_closed ch true))
      as (Hc & Hf & Hr).
    split; [done|]. split; [done|]. intros i. rewrite Hr. simpl.
    destruct (decide (i < Z.to_nat (producer_count ch))%nat),
             (decide (Z.of_nat i < producer_count ch)); (lia || done).
  - rewrite seqZ_nil by lia. simpl. repeat split. intros i.
    destruct (decide (Z.of_nat i < producer_count ch)); [lia | done].
Qed.

(** C7 (amended): [channel_register] first tests the channel's [closed]
    flag and, on a closed channel, returns the closed result [-1] without
    touching [producer_count]; only otherwise does it fetch-and-add
    [producer_count]: when the value before the add is at least
    [MAX_PRODUCERS] it decrements the counter back and returns the
    too-many-producers result [-2]; else it sets [active] on the ring of
    index [id] and returns a handle bound to that ring with that id.  On a
    channel that is both closed and at the ceiling the result is the closed
    one.  Every failing call leaves the channel, hence [producer_count], as
    it was, and [producer_count] never exceeds [MAX_PRODUCERS]. *)
Theorem C7_channel_register MAX_PRODUCERS ch out :
  u64 MAX_PRODUCERS ->
  u64 (producer_count ch) ->
  channel_register MAX_PRODUCERS ch out =
    (if ch_closed ch then (-1, ch, out)
     else if producer_count ch >=? MAX_PRODUCERS then (-2, ch, out)
     else (0,
           mk_channel
             (alter (fun r => set_active r true) (Z.to_nat (producer_count ch)) (rings ch))
             (producer_count ch + 1) false,
           mk_producer (producer_count ch) (producer_count ch))) /\
  ((channel_register MAX_PRODUCERS ch out).1.1 <> 0 ->
     (channel_register MAX_PRODUCERS ch out).1.2 = ch /\
     (channel_register MAX_PRODUCERS ch out).2 = out) /\
  (ch_closed ch = true -> producer_count ch >= MAX_PRODUCERS ->
     (channel_register MAX_PRODUCERS ch out).1.1 = -1) /\
  (producer_count ch <= MAX_PRODUCERS ->
     producer_count (channel_register MAX_PRODUCERS ch out).1.2 <= MAX_PRODUCERS).
Proof.
  intros HM Hc.
  assert (channel_register MAX_PRODUCERS ch out =
    (if ch_closed ch then (-1, ch, out)
     else if producer_count ch >=? MAX_PRODUCERS then (-2, ch, out)
     else (0,
           mk_channel
             (alter (fun r => set_active r true) (Z.to_nat (producer_count ch)) (rings ch))
             (producer_count ch + 1) false,
           mk_producer (producer_count ch) (producer_count ch)))) as ->.
  { unfold channel_register. destruct ch as [rs c cl]. simpl in *.
    destruct cl; [done|]. rewrite !Z.geb_leb.
    destruct (Z.leb_spec MAX_PRODUCERS c).
    - unfold set_producer_count. simpl. do 2 f_equal. f_equal. wrap_lia.
    - unfold set_rings, set_producer_count. simpl. do 2 f_equal. f_equal. wrap_lia. }
  split; [done|]. rewrite Z.geb_leb.
  destruct (ch_closed ch) eqn:Hcl; simpl.
  - repeat split; (done || lia).
  - destruct (Z.leb_spec MAX_PRODUCERS (producer_count ch)); simpl;
      repeat split; (done || lia).
Qed.

(** C8 (amended): after [channel_close], [channel_is_closed] returns true,
    [ring_is_closed] returns true for every ring of index below
    [producer_count], and the rings of index at or above [producer_count]
    are as they were, so remain not closed.  Closing changes nothing but the
    [closed] flags: a producer that goes on with its registered ring gets
    from [ring_reserve] and [producer_send] exactly the results it would have
    got without the close (no failure is reported to it); what fails after
    the close is a new [channel_register], with the closed result. *)
Theorem C8_close_cascade RING_BITS MAX_PRODUCERS ch :
  channel_is_closed (channel_close ch) = true /\
  channel_producer_count (channel_close ch) = channel_producer_count ch /\
  (forall (i : nat) r',
     Z.of_nat i < producer_count ch ->
     rings (channel_close ch) !! i = Some r' ->
     ring_is_closed r' = true /\
     exists r, rings ch !! i = Some r /\ r' = ring_close r) /\
  (forall i : nat,
     producer_count ch <= Z.of_nat i ->
     rings (channel_close ch) !! i = rings ch !! i) /\
  (forall r value,
     (ring_reserve RING_BITS (ring_close r)).1 = (ring_reserve RING_BITS r).1 /\
     (producer_send RING_BITS (ring_close r) value).1
       = (producer_send RING_BITS r value).1) /\
  (forall out,
     channel_register MAX_PRODUCERS (channel_close ch) out
       = (-1, channel_close ch, out)).
Proof.
  destruct (channel_close_spec ch) as (Hc & Hf & Hr).
  split; [exact Hf|]. split; [exact Hc|]. split; [|split; [|split]].
  - intros i r' Hi Hl. rewrite Hr in Hl.
    destruct (decide (Z.of_nat i < producer_count ch)); [|lia].
    destruct (rings ch !! i) as [r|]; simplify_eq/=. eauto.
  - intros i Hi. rewrite Hr.
    destruct (decide (Z.of_nat i < producer_count ch)); [lia | done].
  - intros r value. split; [apply ring_close_reserve | apply ring_close_send].
  - intros out. unfold channel_register. by rewrite Hf.
Qed.

(** ** The wrap boundary, with capacity 8 *)

(** C6 (amended): with capacity 8 and [head = tail = 6],
    [ring_reserve_n(r, 5, &c)] returns the slot 6 with [c = 2]; after
    [ring_commit(r, 2)], a second [ring_reserve_n(r, 5, &c)] returns the
    slot 0 with [c = 5]: the five slots 0..4 are free and contiguous. *)
Theorem C6_wrap_boundary r c :
  tail r = 6 -> head r = 6 ->
  (ring_reserve_n 3 r 5 (Some c)).1 = (Some 6, Some 2) /\
  (ring_reserve_n 3 (ring_commit (ring_reserve_n 3 r 5 (Some c)).2 2) 5 (Some 2)).1
    = (Some 0, Some 5).
Proof.
  intros Ht Hh. destruct r as [t k h ct a cl b]. simpl in *. subst t h.
  unfold ring_reserve_n. simpl.
  change (RING_CAPACITY 3) with 8. change (RING_MASK 3) with 7.
  change (wrap64 (8 - wrap64 (6 - 6))) with 8.
  destruct (wrap64 (8 - wrap64 (6 - k)) <? 5); simpl.
  - split; [reflexivity|]. unfold ring_commit. simpl. change (wrap64 (6 + 2)) with 8.
    change (wrap64 (8 - wrap64 (8 - 6))) with 6. reflexivity.
  - split; [reflexivity|]. unfold ring_commit. simpl. change (wrap64 (6 + 2)) with 8.
    change (wrap64 (8 - wrap64 (8 - 6))) with 6.
    destruct (wrap64 (8 - wrap64 (8 - k)) <? 5); reflexivity.
Qed.

(** *** Registration *)

Lemma channel_init_registered RING_BITS MAX_PRODUCERS :
  channel_init RING_BITS MAX_PRODUCERS = registered_channel RING_BITS MAX_PRODUCERS 0.
Proof. unfold channel_init, registered_channel. simpl. by rewrite Z.sub_0_r. Qed.

Lemma channel_register_registered RING_BITS MAX_PRODUCERS k out :
  u64 MAX_PRODUCERS -> 0 <= k <= MAX_PRODUCERS ->
  channel_register MAX_PRODUCERS (registered_channel RING_BITS MAX_PRODUCERS k) out =
    if k <? MAX_PRODUCERS
    then (0, registered_channel RING_BITS MAX_PRODUCERS (k + 1), mk_producer k k)
    else (-2, registered_channel RING_BITS MAX_PRODUCERS k, out).
Proof.
  intros HM Hk. unfold channel_register, registered_channel. simpl.
  rewrite Z.geb_leb.
  destruct (Z.leb_spec MAX_PRODUCERS k), (Z.ltb_spec k MAX_PRODUCERS); try lia.
  - unfold set_producer_count. simpl. do 2 f_equal. f_equal. wrap_lia.
  - unfold set_rings, set_producer_count. simpl. do 2 f_equal. f_equal; [|wrap_lia].
    rewrite alter_app_r_alt by (rewrite length_replicate; lia).
    rewrite length_replicate, Nat.sub_diag.
    replace (Z.to_nat (MAX_PRODUCERS - k)) with (S (Z.to_nat (MAX_PRODUCERS - (k + 1))))
      by lia.
    replace (Z.to_nat (k + 1)) with (S (Z.to_nat k)) by lia.
    rewrite (replicate_S_end (Z.to_nat k)), <- app_assoc. done.
Qed.

Lemma register_many_registered RING_BITS MAX_PRODUCERS n :
  u64 MAX_PRODUCERS ->
  forall k, 0 <= k <= MAX_PRODUCERS ->
    register_many MAX_PRODUCERS n (registered_channel RING_BITS MAX_PRODUCERS k) =
      ((fun i => if i <? MAX_PRODUCERS then (0, mk_producer i i)
                 else (-2, mk_producer 0 0)) <$> seqZ k (Z.of_nat n),
       registered_channel RING_BITS MAX_PRODUCERS
         (Z.min (k + Z.of_nat n) MAX_PRODUCERS)).
Proof.
  intros HM. induction n as [|n IH]; intros k Hk.
  - simpl. rewrite Z.add_0_r, Z.min_l by lia. done.
  - cbn [register_many]. rewrite channel_register_registered by done.
    rewrite (seqZ_cons k) by lia. rewrite fmap_cons.
    replace (Z.pred (Z.of_nat (S n))) with (Z.of_nat n) by lia.
    destruct (Z.ltb_spec k MAX_PRODUCERS).
    + rewrite IH by lia.
      replace (Z.succ k) with (k + 1) by lia.
      by replace (k + Z.of_nat (S n)) with (k + 1 + Z.of_nat n) by lia.
    + rewrite IH by lia.
      assert (k = MAX_PRODUCERS) as -> by lia.
      rewrite !Z.min_r by lia. do 2 f_equal.
      replace (seqZ MAX_PRODUCERS (Z.of_nat n))
        with (Z.add MAX_PRODUCERS <$> seqZ 0 (Z.of_nat n))
        by (rewrite fmap_add_seqZ; f_equal; lia).
      replace (seqZ (Z.succ MAX_PRODUCERS) (Z.of_nat n))
        with (Z.add (Z.succ MAX_PRODUCERS) <$> seqZ 0 (Z.of_nat n))
        by (rewrite fmap_add_seqZ; f_equal; lia).
      rewrite <- !list_fmap_compose. apply list_fmap_ext.
      intros i j [-> _]%lookup_seqZ. simpl.
      destruct (Z.ltb_spec (MAX_PRODUCERS + (0 + Z.of_nat i)) MAX_PRODUCERS),
               (Z.ltb_spec (Z.succ MAX_PRODUCERS + (0 + Z.of_nat i)) MAX_PRODUCERS);
        (lia || done).
Qed.

(** [n] registrations in a row on the initialised channel: the [i]-th call
    (from 0) succeeds with the handle of ring [i] and id [i] as long as
    [i < MAX_PRODUCERS], and every later call returns the too-many-producers
    result and leaves its handle unwritten; [producer_count] ends at
    [min(n, MAX_PRODUCERS)], the channel stays open, exactly the rings below
    that count are active, and the registrations change nothing else of the
    rings. *)
Theorem registration_sequence RING_BITS MAX_PRODUCERS n :
  u64 MAX_PRODUCERS ->
  (register_many MAX_PRODUCERS n (channel_init RING_BITS MAX_PRODUCERS)).1 =
    ((fun i => if i <? MAX_PRODUCERS then (0, mk_producer i i)
               else (-2, mk_producer 0 0)) <$> seqZ 0 (Z.of_nat n)) /\
  producer_count (register_many MAX_PRODUCERS n (channel_init RING_BITS MAX_PRODUCERS)).2
    = Z.min (Z.of_nat n) MAX_PRODUCERS /\
  ch_closed (register_many MAX_PRODUCERS n (channel_init RING_BITS MAX_PRODUCERS)).2
    = false /\
  forall i : nat,
    rings (register_many MAX_PRODUCERS n (channel_init RING_BITS MAX_PRODUCERS)).2 !! i =
      if decide (Z.of_nat i < Z.min (Z.of_nat n) MAX_PRODUCERS)
      then Some (set_active (ring_init RING_BITS) true)
      else if decide (Z.of_nat i < MAX_PRODUCERS) then Some (ring_init RING_BITS)
      else None.
Proof.
  intros HM. rewrite channel_init_registered, register_many_registered
    by (unfold u64 in *; lia).
  simpl. rewrite Z.add_0_l. repeat split. intros i.
  set (m := Z.min (Z.of_nat n) MAX_PRODUCERS).
  assert (0 <= m <= MAX_PRODUCERS) as Hm by (unfold m, u64 in *; lia).
  destruct (decide (Z.of_nat i < m)).
  - rewrite lookup_app_l by (rewrite length_replicate; lia).
    apply lookup_replicate_2. lia.
  - rewrite lookup_app_r by (rewrite length_replicate; lia).
    rewrite length_replicate.
    destruct (decide (Z.of_nat i < MAX_PRODUCERS)).
    + apply lookup_replicate_2. lia.
    + apply lookup_replicate_None. lia.
Qed.

(** *** Consuming from every ring *)

Lemma channel_consume_all_loop {C : Type} RING_BITS (handler : consume_handler_t C)
    ch ctx (n : nat) :
  (n <= length (rings ch))%nat ->
  Forall (fun r => u64 (head r) /\ u64 (tail r)) (take n (rings ch)) ->
  foldl (fun acc i =>
           '(total, ctx, ch) ← acc;
           r ← rings ch !! Z.to_nat i;
           '(n, ctx, r) ← ring_consume_batch RING_BITS r handler ctx;
           Some (wrap64 (total + n), ctx,
                 set_rings ch (<[Z.to_nat i := r]> (rings ch))))
        (Some (0, ctx, ch)) (seqZ 0 (Z.of_nat n)) =
    Some (wrap64 (foldl Z.add 0 (ring_len <$> take n (rings ch))),
          invoke handler ctx (concat (in_flight RING_BITS <$> take n (rings ch))),
          set_rings ch ((drained <$> take n (rings ch)) ++ drop n (rings ch))).
Proof.
  induction n as [|n IH]; intros Hn Hwf.
  - simpl. rewrite drop_0. by destruct ch.
  - destruct (lookup_lt_is_Some_2 (rings ch) n) as [r Hr]; [lia|].
    rewrite (take_S_r _ _ _ Hr) in Hwf |- *.
    apply Forall_app in Hwf as [Hwf Hwfr]. apply Forall_singleton in Hwfr as [Hh Ht].
    rewrite seqZ_S, foldl_snoc, IH by (done || lia).
    rewrite Z.add_0_l, Nat2Z.id. simpl.
    rewrite lookup_app_r by (rewrite length_fmap, length_take; lia).
    rewrite length_fmap, length_take, Nat.min_l, Nat.sub_diag by lia.
    rewrite lookup_drop, Nat.add_0_r, Hr. simpl.
    rewrite ring_consume_batch_spec by done. simpl.
    rewrite !fmap_app, foldl_app, concat_app, invoke_app. simpl.
    rewrite app_nil_r, wrap64_add_l. fold (ring_len r). fold (drained r).
    do 2 f_equal. unfold set_rings. simpl. f_equal.
    rewrite insert_app_r_alt by (rewrite length_fmap, length_take; lia).
    rewrite length_fmap, length_take, Nat.min_l, Nat.sub_diag by lia.
    rewrite (drop_S _ _ _ Hr). simpl. by rewrite <- app_assoc.
Qed.

(** [channel_consume_all] sweeps the registered rings in index order: the
    handler runs over the items in flight of ring 0, oldest first, then over
    those of ring 1, and so on up to [producer_count]; the result is the sum
    of the rings' lengths (modulo [2^64]); every registered ring is left
    drained, and nothing else in the channel changes. *)
Theorem channel_consume_all_sweeps {C : Type} RING_BITS (handler : consume_handler_t C)
    ch ctx :
  0 <= producer_count ch <= Z.of_nat (length (rings ch)) ->
  Forall (fun r => u64 (head r) /\ u64 (tail r))
         (take (Z.to_nat (producer_count ch)) (rings ch)) ->
  channel_consume_all RING_BITS ch handler ctx =
    Some (wrap64 (foldl Z.add 0
                    (ring_len <$> take (Z.to_nat (producer_count ch)) (rings ch))),
          invoke handler ctx
            (concat (in_flight RING_BITS
                       <$> take (Z.to_nat (producer_count ch)) (rings ch))),
          set_rings ch
            ((drained <$> take (Z.to_nat (producer_count ch)) (rings ch))
               ++ drop (Z.to_nat (producer_count ch)) (rings ch))).
Proof.
  intros Hcount Hwf. unfold channel_consume_all.
  replace (seqZ 0 (producer_count ch))
    with (seqZ 0 (Z.of_nat (Z.to_nat (producer_count ch))))
    by (rewrite Z2Nat.id; [done | lia]).
  apply channel_consume_all_loop; [lia | done].
Qed.

(** A second [channel_consume_all] right after a first one returns 0,
    leaves the handler's context untouched and changes nothing: the first
    sweep has taken everything that was in flight. *)
Theorem channel_consume_all_twice {C : Type} RING_BITS (handler : consume_handler_t C)
    ch ctx n ctx1 ch1 ctx' :
  0 <= producer_count ch <= Z.of_nat (length (rings ch)) ->
  Forall (fun r => u64 (head r) /\ u64 (tail r))
         (take (Z.to_nat (producer_count ch)) (rings ch)) ->
  channel_consume_all RING_BITS ch handler ctx = Some (n, ctx1, ch1) ->
  channel_consume_all RING_BITS ch1 handler ctx' = Some (0, ctx', ch1).
Proof.
  intros Hcount Hwf Hfirst.
  rewrite channel_consume_all_sweeps in Hfirst by done.
  injection Hfirst as _ _ <-.
  set (k := Z.to_nat (producer_count ch)).
  assert (length (drained <$> take k (rings ch)) = k) as Hlen
    by (rewrite length_fmap, length_take; lia).
  rewrite channel_consume_all_sweeps; simpl; fold k.
  - rewrite take_app_length', drop_app_length' by done.
    rewrite <- !list_fmap_compose.
    assert (ring_len ∘ drained <$> take k (rings ch)
            = (fun _ => 0) <$> take k (rings ch)) as ->.
    { apply list_fmap_ext. intros i r _. unfold ring_len, drained. simpl.
      by rewrite Z.sub_diag. }
    assert (in_flight RING_BITS ∘ drained <$> take k (rings ch)
            = (fun _ => []) <$> take k (rings ch)) as ->.
    { apply list_fmap_ext. intros i r _. unfold in_flight, drained. simpl.
      by rewrite Z.sub_diag. }
    assert (drained ∘ drained <$> take k (rings ch) = drained <$> take k (rings ch))
      as -> by (by apply list_fmap_ext).
    assert (foldl Z.add 0 ((fun _ : ring_t => 0) <$> take k (rings ch)) = 0) as ->
      by (clear; induction (take k (rings ch)) as [|? ? IH]; [done | simpl; exact IH]).
    assert (concat ((fun _ : ring_t => @nil (Z * Z)) <$> take k (rings ch)) = []) as ->
      by (clear; induction (take k (rings ch)) as [|? ? IH]; [done | simpl; exact IH]).
    done.
  - rewrite length_app, length_drop, Hlen. lia.
  - rewrite take_app_length' by done. apply Forall_fmap.
    eapply Forall_impl; [exact Hwf|]. intros r [Hh Ht]. simpl. done.
Qed.

(** *** The benchmark's batch size against the ring capacity *)

(** With the benchmark's constants (batches of 32768 out of 500 million
    messages) and a ring of fewer than 32768 slots ([RING_BITS <= 14]), the
    producer never publishes anything: every reserve asks for more than the
    capacity and is refused at once, so that, whatever the interleaving with
    the consumer, the ring, [sent] and the consumer's count stay as they
    were at the start. *)
Theorem bench_batch_exceeds_capacity RING_BITS sched :
  1 <= RING_BITS <= 14 ->
  bench_run RING_BITS MESSAGES_PER_PRODUCER BATCH_SIZE sched
            (mk_bench (ring_init RING_BITS) 0 0)
    = Some (mk_bench (ring_init RING_BITS) 0 0).
Proof.
  intros Hbits.
  assert (RING_CAPACITY RING_BITS < 32768) as Hcap.
  { rewrite RING_CAPACITY_pow by lia. change 32768 with (2 ^ 15).
    apply Z.pow_lt_mono_r; lia. }
  induction sched as [|t sched IH]; [done|].
  cbn [bench_run]. destruct t.
  - assert (bench_turn RING_BITS MESSAGES_PER_PRODUCER BATCH_SIZE ProducerTurn
              (mk_bench (ring_init RING_BITS) 0 0)
            = Some (mk_bench (ring_init RING_BITS) 0 0)) as ->; [|exact IH].
    unfold bench_turn, producer_iteration, ring_reserve_n. simpl.
    change (wrap64 (MESSAGES_PER_PRODUCER - 0)) with 500000000.
    change (BATCH_SIZE >? 500000000) with false. cbn iota.
    unfold BATCH_SIZE. rewrite Z.gtb_ltb.
    destruct (Z.ltb_spec (RING_CAPACITY RING_BITS) 32768); [done | lia].
  - assert (bench_turn RING_BITS MESSAGES_PER_PRODUCER BATCH_SIZE ConsumerTurn
              (mk_bench (ring_init RING_BITS) 0 0)
            = Some (mk_bench (ring_init RING_BITS) 0 0)) as ->; [done | exact IH].
Qed.

(** ** Runs with capacity 8 *)

(** Eleven of twelve sends succeed (the ninth of the second burst meets a
    full ring); the handler sees the eleven values in order, the slots
    wrapping after 7, the last value being drained after the close. *)
Example sample_actions_delivery :
  run_actions 3 record_call (sample_actions ++ [ConsumeBatch])
              (mk_sim (ring_init 3) [] []) =
    Some (mk_sim
            (mk_ring 11 10 11 0 false true [18; 19; 21; 13; 14; 15; 16; 17])
            [10; 11; 12; 13; 14; 15; 16; 17; 18; 19; 21]
            [(0, 10); (1, 11); (2, 12); (3, 13); (4, 14); (5, 15); (6, 16); (7, 17);
             (0, 18); (1, 19); (2, 21)]).
Proof. by_evaluation. Qed.

(** Full-ring backpressure: after eight sends without a consume the ninth
    reserve returns [NULL]; once one item is consumed the next reserve
    succeeds at slot 0. *)
Example full_ring_backpressure :
  let full := mk_ring 8 0 0 0 false false [1; 2; 3; 4; 5; 6; 7; 8] in
  run_actions 3 record_call
    [Send 1; Send 2; Send 3; Send 4; Send 5; Send 6; Send 7; Send 8]
    (mk_sim (ring_init 3) [] []) = Some (mk_sim full [1; 2; 3; 4; 5; 6; 7; 8] []) /\
  ring_is_full 3 full = true /\
  ring_reserve 3 full = (None, full) /\
  ring_consume_up_to 3 full 1 record_call [] = Some (1, [(0, 1)], set_head full 1) /\
  ring_reserve 3 (set_head full 1) = (Some 0, set_cached_head (set_head full 1) 1).
Proof. by_evaluation. Qed.

(** Bounded consume on the sample ring: four of the six items. *)
Example sample_consume_up_to :
  ring_consume_up_to 3 sample_ring 4 record_call [] =
    Some (4, [(3, 13); (4, 14); (5, 15); (6, 16)], set_head sample_ring 7).
Proof. by_evaluation. Qed.

(** ** The theorems on concrete states *)

Lemma C1_round_trip_delivery_witness :
  1 <= 3 <= 63 /\
  exists s : sim (list (Z * Z)),
    run_actions 3 record_call (sample_actions ++ [ConsumeBatch])
                (mk_sim (ring_init 3) [] []) = Some s /\
    (sim_ctx s).*2 = sim_sent s /\
    ring_is_empty (sim_ring s) = true /\
    forall (C : Type) (handler : consume_handler_t C) (ctx0 : C),
      run_actions 3 handler (sample_actions ++ [ConsumeBatch])
                  (mk_sim (ring_init 3) [] ctx0) =
        Some (mk_sim (sim_ring s) (sim_sent s) (invoke handler ctx0 (sim_ctx s))).
Proof. split; [lia | apply (C1_round_trip_delivery 3); lia]. Defined.

Lemma C2_ring_invariants_witness :
  1 <= 3 <= 63 /\
  exists s1 s2 : pstate (list (Z * Z)),
    exec_ops 3 record_call sample_ops_1 (mk_pstate (ring_init 3) 0 []) = Some s1 /\
    exec_ops 3 record_call sample_ops_2 s1 = Some s2 /\
    ring_inv_mod 3 (ps_ring s2) /\
    (committed (sample_ops_1 ++ sample_ops_2) < 2 ^ 64 ->
       ring_inv 3 (ps_ring s2) /\
       tail (ps_ring s2) = committed (sample_ops_1 ++ sample_ops_2) /\
       head (ps_ring s1) <= head (ps_ring s2) /\
       tail (ps_ring s1) <= tail (ps_ring s2)).
Proof.
  split; [lia|]. eexists _, _.
  split; [vm_compute; reflexivity|]. split; [vm_compute; reflexivity|].
  apply (C2_ring_invariants 3 ltac:(lia) record_call [] sample_ops_1 sample_ops_2);
    vm_compute; reflexivity.
Defined.

Lemma C3_ring_reserve_n_witness :
  (1 <= 3 <= 63 /\
   ring_wf 3 sample_ring /\
   cached_head sample_ring <= head sample_ring <= tail sample_ring /\
   tail sample_ring <= head sample_ring + RING_CAPACITY 3 /\
   tail sample_ring - cached_head sample_ring <= RING_CAPACITY 3 /\
   1 <= 2 <= RING_CAPACITY 3) /\
  ((ring_reserve_n 3 sample_ring 2 (Some 0)).1.1 = None
     <-> RING_CAPACITY 3 - (tail sample_ring - head sample_ring) < 2) /\
  ((ring_reserve_n 3 sample_ring 2 (Some 0)).1.1 = None ->
     (ring_reserve_n 3 sample_ring 2 (Some 0)).1.2 = Some 0) /\
  ((ring_reserve_n 3 sample_ring 2 (Some 0)).1.1 <> None ->
     (ring_reserve_n 3 sample_ring 2 (Some 0)).1.1
       = Some (tail sample_ring mod RING_CAPACITY 3) /\
     (ring_reserve_n 3 sample_ring 2 (Some 0)).1.2 =
       Some (Z.min 2 (RING_CAPACITY 3 - tail sample_ring mod RING_CAPACITY 3))) /\
  tail (ring_reserve_n 3 sample_ring 2 (Some 0)).2 = tail sample_ring /\
  head (ring_reserve_n 3 sample_ring 2 (Some 0)).2 = head sample_ring /\
  buffer (ring_reserve_n 3 sample_ring 2 (Some 0)).2 = buffer sample_ring.
Proof.
  split; [by_evaluation|].
  apply (C3_ring_reserve_n 3 ltac:(lia) sample_ring 2 (Some 0)); by_evaluation.
Defined.

Lemma C4_ring_reserve_witness :
  (1 <= 3 <= 63 /\
   ring_wf 3 sample_ring /\
   cached_head sample_ring <= head sample_ring <= tail sample_ring /\
   tail sample_ring <= head sample_ring + RING_CAPACITY 3 /\
   tail sample_ring - cached_head sample_ring <= RING_CAPACITY 3) /\
  (ring_reserve 3 sample_ring).1 =
    (if tail sample_ring - head sample_ring <? RING_CAPACITY 3
     then Some (tail sample_ring mod RING_CAPACITY 3) else None) /\
  (is_Some (ring_reserve 3 sample_ring).1
     <-> tail sample_ring - head sample_ring < RING_CAPACITY 3) /\
  tail (ring_reserve 3 sample_ring).2 = tail sample_ring /\
  head (ring_reserve 3 sample_ring).2 = head sample_ring /\
  buffer (ring_reserve 3 sample_ring).2 = buffer sample_ring /\
  (tail sample_ring - cached_head sample_ring < RING_CAPACITY 3 ->
     ring_reserve 3 sample_ring
       = (Some (tail sample_ring mod RING_CAPACITY 3), sample_ring)) /\
  ((ring_reserve 3 sample_ring).2 = sample_ring \/
   (ring_reserve 3 sample_ring).2 = set_cached_head sample_ring (head sample_ring)).
Proof.
  split; [by_evaluation|].
  apply (C4_ring_reserve 3 ltac:(lia) sample_ring); by_evaluation.
Defined.

Lemma C5_ring_consume_batch_witness :
  (1 <= 3 <= 63 /\
   u64 (head sample_ring) /\ u64 (tail sample_ring) /\
   head sample_ring <= tail sample_ring /\
   tail sample_ring <= head sample_ring + RING_CAPACITY 3) /\
  ring_consume_batch 3 sample_ring record_call [] =
    Some (6, [(3, 13); (4, 14); (5, 15); (6, 16); (7, 17); (0, 18)],
          set_head sample_ring 9) /\
  (head sample_ring = tail sample_ring ->
     ring_consume_batch 3 sample_ring record_call [] = Some (0, [], sample_ring)).
Proof.
  split; [by_evaluation|].
  apply (C5_ring_consume_batch 3 ltac:(lia) record_call sample_ring []); by_evaluation.
Defined.

Lemma C6_wrap_boundary_witness :
  (tail wrap_boundary_ring = 6 /\ head wrap_boundary_ring = 6) /\
  (ring_reserve_n 3 wrap_boundary_ring 5 (Some 0)).1 = (Some 6, Some 2) /\
  (ring_reserve_n 3
     (ring_commit (ring_reserve_n 3 wrap_boundary_ring 5 (Some 0)).2 2) 5 (Some 2)).1
    = (Some 0, Some 5).
Proof.
  split; [by_evaluation|].
  apply (C6_wrap_boundary wrap_boundary_ring 0); by_evaluation.
Defined.

Lemma C7_channel_register_witness :
  (u64 2 /\ u64 (producer_count one_producer_channel)) /\
  channel_register 2 one_producer_channel (mk_producer 0 0) =
    (0,
     mk_channel
       (alter (fun r => set_active r true) 1%nat (rings one_producer_channel)) 2 false,
     mk_producer 1 1) /\
  channel_register 2 full_closed_channel (mk_producer 7 7) =
    (-1, full_closed_channel, mk_producer 7 7) /\
  channel_register 2 (set_ch_closed full_closed_channel false) (mk_producer 7 7) =
    (-2, set_ch_closed full_closed_channel false, mk_producer 7 7).
Proof.
  split; [by_evaluation|]. split; [|split].
  - apply (C7_channel_register 2 one_producer_channel (mk_producer 0 0)); by_evaluation.
  - apply (C7_channel_register 2 full_closed_channel (mk_producer 7 7)); by_evaluation.
  - apply (C7_channel_register 2 (set_ch_closed full_closed_channel false)
             (mk_producer 7 7)); by_evaluation.
Defined.

Lemma C8_close_cascade_witness :
  channel_is_closed (channel_close one_producer_channel) = true /\
  (forall r', rings (channel_close one_producer_channel) !! 0%nat = Some r' ->
     ring_is_closed r' = true) /\
  rings (channel_close one_producer_channel) !! 1%nat
    = rings one_producer_channel !! 1%nat /\
  channel_register 2 (channel_close one_producer_channel) (mk_producer 0 0)
    = (-1, channel_close one_producer_channel, mk_producer 0 0).
Proof.
  destruct (C8_close_cascade 3 2 one_producer_channel)
    as (Hclosed & _ & Hregistered & Hfree & _ & Hregister).
  split; [exact Hclosed|]. split; [|split].
  - intros r' Hr'. apply (Hregistered 0%nat r'); [by_evaluation | exact Hr'].
  - apply Hfree. by_evaluation.
  - apply Hregister.
Defined.

Lemma C9_ring_commit_frame_witness :
  1 <= 3 <= 63 /\
  tail (ring_commit sample_ring 5) = (tail sample_ring + 5) mod 2 ^ 64 /\
  head (ring_commit sample_ring 5) = head sample_ring /\
  cached_head (ring_commit sample_ring 5) = cached_head sample_ring /\
  cached_tail (ring_commit sample_ring 5) = cached_tail sample_ring /\
  closed (ring_commit sample_ring 5) = closed sample_ring /\
  active (ring_commit sample_ring 5) = active sample_ring /\
  buffer (ring_commit sample_ring 5) = buffer sample_ring /\
  (forall idx, load (buffer (ring_commit sample_ring 5)) idx
               = load (buffer sample_ring) idx) /\
  tail (ring_commit (ring_init 3) (RING_CAPACITY 3 + 1))
    - head (ring_commit (ring_init 3) (RING_CAPACITY 3 + 1)) > RING_CAPACITY 3.
Proof.
  split; [lia|]. apply (C9_ring_commit_frame 3 ltac:(lia) sample_ring 5).
Defined.

Lemma C10_closed_noninterference_witness :
  (1 <= 3 <= 63 /\ closed_equiv (set_closed sample_ring true) sample_ring) /\
  (ring_reserve 3 (set_closed sample_ring true)).1 = (ring_reserve 3 sample_ring).1 /\
  (ring_reserve_n 3 (set_closed sample_ring true) 2 (Some 0)).1
    = (ring_reserve_n 3 sample_ring 2 (Some 0)).1 /\
  closed_equiv (ring_commit (set_closed sample_ring true) 2) (ring_commit sample_ring 2) /\
  (producer_send 3 (set_closed sample_ring true) 42).1
    = (producer_send 3 sample_ring 42).1 /\
  (producer_send 3 (set_closed sample_ring true) 42).1 = true.
Proof.
  split; [by_evaluation|].
  destruct (C10_closed_noninterference 3 ltac:(lia)
              (set_closed sample_ring true) sample_ring 2 (Some 0) 42
              ltac:(by_evaluation))
    as ((Hres & _) & (Hres_n & _) & (Hcommit & _) & (Hsend & _) & Hclosed).
  split; [exact Hres|]. split; [exact Hres_n|]. split; [exact Hcommit|].
  split; [exact Hsend|].
  apply Hclosed; by_evaluation.
Defined.

(** ** Where the code departs from the statements of the specification *)

(** C2 as stated fails once [2^64] slots have been committed: in the
    default configuration ([RING_BITS = 16]), after [2^48 - 1] cycles that
    fill and drain the whole ring and one more reserve of 65536 slots, the
    paired commit of these 65536 slots takes [tail] from [2^64 - 65536] down
    to 0, below [head]. *)
Lemma C2_counterexample :
  exists s1 s2 : pstate unit,
    exec_ops RING_BITS_default noop_handler (wrapping_run RING_BITS_default)
             (mk_pstate (ring_init RING_BITS_default) 0 tt) = Some s1 /\
    exec_op RING_BITS_default noop_handler
            (OpCommit (RING_CAPACITY RING_BITS_default)) s1 = Some s2 /\
    ~ (head (ps_ring s2) <= tail (ps_ring s2)) /\
    ~ (tail (ps_ring s1) <= tail (ps_ring s2)).
Proof.
  destruct (wrapping_run_overflows RING_BITS_default ltac:(unfold RING_BITS_default; lia))
    as (s1 & s2 & Hrun & Hcommit & Hh1 & Ht1 & Hh2 & Ht2).
  exists s1, s2. split; [exact Hrun|]. split; [exact Hcommit|].
  rewrite Ht1, Hh2, Ht2.
  assert (RING_CAPACITY RING_BITS_default = 65536) as -> by reflexivity.
  change (2 ^ 64) with 18446744073709551616. lia.
Qed.

(** C3 as stated fails on a state that satisfies
    [cached_head <= head <= tail <= head + capacity] but not
    [tail - cached_head <= capacity]: the ring is full, yet the fast path,
    whose space computation wraps around, grants a slot. *)
Lemma C3_counterexample :
  (ring_wf 3 stale_cache_ring /\
   cached_head stale_cache_ring <= head stale_cache_ring <= tail stale_cache_ring /\
   tail stale_cache_ring <= head stale_cache_ring + RING_CAPACITY 3 /\
   1 <= 1 <= RING_CAPACITY 3) /\
  RING_CAPACITY 3 - (tail stale_cache_ring - head stale_cache_ring) < 1 /\
  (ring_reserve_n 3 stale_cache_ring 1 (Some 0)).1 = (Some 2, Some 1) /\
  ~ ((ring_reserve_n 3 stale_cache_ring 1 (Some 0)).1.1 = None
       <-> RING_CAPACITY 3 - (tail stale_cache_ring - head stale_cache_ring) < 1).
Proof.
  split; [by_evaluation|]. split; [by_evaluation|]. split; [by_evaluation|].
  intros [_ Hnone]. specialize (Hnone ltac:(by_evaluation)). discriminate Hnone.
Qed.

(** C6 as stated fails on its second reserve: the contiguous count is 5,
    not 3. *)
Lemma C6_counterexample :
  tail wrap_boundary_ring = 6 /\ head wrap_boundary_ring = 6 /\
  RING_CAPACITY 3 = 8 /\
  (ring_reserve_n 3 wrap_boundary_ring 5 (Some 0)).1 = (Some 6, Some 2) /\
  (ring_reserve_n 3
     (ring_commit (ring_reserve_n 3 wrap_boundary_ring 5 (Some 0)).2 2) 5 (Some 2)).1
    = (Some 0, Some 5) /\
  (ring_reserve_n 3
     (ring_commit (ring_reserve_n 3 wrap_boundary_ring 5 (Some 0)).2 2) 5 (Some 2)).1
    <> (Some 0, Some 3).
Proof. by_evaluation. Qed.

(** C7 as stated fails on a channel that is closed and at the producer
    ceiling: the closed test comes first, the result is [-1] (closed), not
    [-2] (too many producers). *)
Lemma C7_counterexample :
  ch_closed full_closed_channel = true /\
  producer_count full_closed_channel = 2 /\
  (channel_register 2 full_closed_channel (mk_producer 0 0)).1.1 = -1 /\
  (channel_register 2 full_closed_channel (mk_producer 0 0)).1.1 <> -2.
Proof. by_evaluation. Qed.

(** C8 as stated fails in its last part: after [channel_close] the
    registered producer's ring is closed, and its [ring_reserve] and
    [producer_send] still succeed. *)
Lemma C8_counterexample :
  channel_is_closed (channel_close one_producer_channel) = true /\
  ring_is_closed <$> rings (channel_close one_producer_channel) !! 0%nat = Some true /\
  fst <$> through_handle (channel_close one_producer_channel) first_producer
            (ring_reserve 3) = Some (Some 0) /\
  fst <$> through_handle (channel_close one_producer_channel) first_producer
            (fun r => producer_send 3 r 42) = Some true.
Proof. by_evaluation. Qed.

(** ** The further properties on concrete states *)

(** The benchmark's threads with capacity 8, 20 messages and batches of 5:
    the producer's batches are cut at the end of the buffer and by the
    messages that remain; the consumer has counted all 20. *)
Example bench_sample_run :
  bench_run 3 20 5 sample_schedule (mk_bench (ring_init 3) 0 0) =
    Some (mk_bench
            (mk_ring 20 13 20 0 false false [16; 17; 18; 19; 12; 13; 14; 15])
            20 20).
Proof. by_evaluation. Qed.

(** Two registered rings swept in index order. *)
Example sample_channel_sweep :
  channel_consume_all 3 sample_channel record_call [] =
    Some (8,
          [(3, 13); (4, 14); (5, 15); (6, 16); (7, 17); (0, 18); (0, 40); (1, 41)],
          mk_channel
            [drained sample_ring;
             drained (mk_ring 2 0 0 0 true false [40; 41; 0; 0; 0; 0; 0; 0]);
             ring_init 3]
            2 false).
Proof. by_evaluation. Qed.

Lemma ring_full_iff_backpressure_witness :
  (1 <= 3 <= 63 /\ ring_wf 3 sample_ring /\ ring_inv_mod 3 sample_ring /\
   1 <= 3 <= RING_CAPACITY 3) /\
  ring_len sample_ring <= RING_CAPACITY 3 /\
  (ring_is_full 3 sample_ring = true <-> ring_len sample_ring = RING_CAPACITY 3) /\
  (ring_is_full 3 sample_ring = true <-> (ring_reserve 3 sample_ring).1 = None) /\
  (ring_is_full 3 sample_ring = true <-> (producer_send 3 sample_ring 42).1 = false) /\
  ((ring_reserve_n 3 sample_ring 3 (Some 0)).1.1 = None
     <-> RING_CAPACITY 3 - ring_len sample_ring < 3).
Proof.
  split; [by_evaluation|].
  apply (ring_full_iff_backpressure 3 ltac:(lia) sample_ring 42 3 (Some 0));
    by_evaluation.
Defined.

Lemma ring_consume_batch_drains_witness :
  (u64 (head sample_ring) /\ u64 (tail sample_ring)) /\
  ring_consume_batch 3 sample_ring record_call [] =
    Some (ring_len sample_ring, invoke record_call [] (in_flight 3 sample_ring),
          drained sample_ring) /\
  ring_is_empty (drained sample_ring) = true /\
  in_flight 3 (drained sample_ring) = [] /\
  ring_consume_batch 3 (drained sample_ring) record_call [(0, 0)]
    = Some (0, [(0, 0)], drained sample_ring).
Proof.
  split; [by_evaluation|].
  apply (ring_consume_batch_drains 3 record_call sample_ring [] [(0, 0)]);
    by_evaluation.
Defined.

Lemma ring_consume_up_to_bounded_witness :
  (u64 (head sample_ring) /\ u64 (tail sample_ring) /\ 0 <= 4) /\
  ring_consume_up_to 3 sample_ring 4 record_call [] =
    Some (4, [(3, 13); (4, 14); (5, 15); (6, 16)], set_head sample_ring 7) /\
  in_flight 3 (set_head sample_ring 7) = [(7, 17); (0, 18)] /\
  ring_len (set_head sample_ring 7) = 2.
Proof.
  split; [by_evaluation|].
  apply (ring_consume_up_to_bounded 3 record_call sample_ring 4 []); by_evaluation.
Defined.

Lemma consume_up_to_then_batch_witness :
  (u64 (head sample_ring) /\ u64 (tail sample_ring) /\ 0 <= 4) /\
  ('(n1, ctx1, r1) ← ring_consume_up_to 3 sample_ring 4 record_call [];
   '(n2, ctx2, r2) ← ring_consume_batch 3 r1 record_call ctx1;
   Some (n1 + n2, ctx2, r2))
  = ring_consume_batch 3 sample_ring record_call [].
Proof.
  split; [by_evaluation|].
  apply (consume_up_to_then_batch 3 record_call sample_ring 4 []); by_evaluation.
Defined.

Lemma ring_reserve_n_grants_free_slots_witness :
  (1 <= 3 <= 63 /\ ring_wf 3 sample_ring /\ ring_inv_mod 3 sample_ring /\
   ring_reserve_n 3 sample_ring 2 (Some 0)
     = (Some 1, Some 2, set_cached_head sample_ring 3) /\
   0 <= 2) /\
  1 <= 2 <= 2 /\
  0 <= 1 /\ 1 + 2 <= RING_CAPACITY 3 /\
  2 <= RING_CAPACITY 3 - ring_len sample_ring /\
  in_flight 3 (set_cached_head sample_ring 3) = in_flight 3 sample_ring /\
  forall j, 0 <= j < 2 -> 1 + j ∉ (in_flight 3 sample_ring).*1.
Proof.
  split; [by_evaluation|].
  apply (ring_reserve_n_grants_free_slots 3 ltac:(lia) sample_ring 2 0 1 2
           (set_cached_head sample_ring 3));
    by_evaluation.
Defined.

Lemma ring_reserve_n_one_witness :
  1 <= 3 <= 63 /\
  ring_reserve_n 3 sample_ring 1 (Some 0) =
    ((ring_reserve 3 sample_ring).1,
     match (ring_reserve 3 sample_ring).1, Some 0 with
     | Some _, Some _ => Some 1
     | _, _ => Some 0
     end,
     (ring_reserve 3 sample_ring).2).
Proof.
  split; [lia|]. apply (ring_reserve_n_one 3 ltac:(lia) sample_ring (Some 0)).
Defined.


Lemma write_pattern_writes_witness :
  (0 <= 1 /\ 0 <= 6 < 2 ^ 64 - 4 /\ 1 + 6 <= Z.of_nat (length (buffer sample_ring))) /\
  exists b',
    write_pattern (buffer sample_ring) 1 100 6 = Some b' /\
    b' = write_each (buffer sample_ring) 1 100 6 /\
    length b' = length (buffer sample_ring) /\
    (forall j, 0 <= j < 6 -> load b' (1 + j) = wrap64 (100 + j)) /\
    (forall x, 0 <= x -> ~ (1 <= x < 1 + 6) ->
               load b' x = load (buffer sample_ring) x).
Proof.
  split; [by_evaluation|].
  apply (write_pattern_writes (buffer sample_ring) 1 100 6); by_evaluation.
Defined.

Lemma producer_iteration_publishes_witness :
  (1 <= 3 <= 63 /\ ring_wf 3 sample_ring /\ ring_inv_mod 3 sample_ring /\
   u64 20 /\ 0 <= 9 < 20 /\ 1 <= 2 < 2 ^ 64) /\
  exists r' c,
    producer_iteration 3 20 2 sample_ring 9 = Some (r', 9 + c) /\
    0 <= c <= Z.min 2 (20 - 9) /\
    (c = 0 <-> RING_CAPACITY 3 - ring_len sample_ring < Z.min 2 (20 - 9)) /\
    (in_flight 3 r').*2 = (in_flight 3 sample_ring).*2 ++ seqZ 9 c /\
    ring_len r' = ring_len sample_ring + c /\
    ring_wf 3 r' /\ ring_inv_mod 3 r'.
Proof.
  split; [by_evaluation|].
  apply (producer_iteration_publishes 3 ltac:(lia) 20 2 sample_ring 9); by_evaluation.
Defined.

Lemma bench_run_conserves_witness :
  (1 <= 3 <= 63 /\ u64 20 /\ 1 <= 5 < 2 ^ 64) /\
  exists s,
    bench_run 3 20 5 sample_schedule (mk_bench (ring_init 3) 0 0) = Some s /\
    0 <= bs_count s /\
    bs_count s + ring_len (bs_ring s) = bs_sent s /\
    bs_sent s <= 20 /\
    (in_flight 3 (bs_ring s)).*2 = seqZ (bs_count s) (ring_len (bs_ring s)) /\
    ring_wf 3 (bs_ring s) /\ ring_inv_mod 3 (bs_ring s).
Proof.
  split; [by_evaluation|].
  apply (bench_run_conserves 3 ltac:(lia) 20 5 sample_schedule); by_evaluation.
Defined.

Lemma consumer_thread_stops_iff_closed_witness :
  (u64 (head sample_ring) /\ u64 (tail sample_ring) /\
   closed closed_sample_ring = true /\ closed sample_ring = false /\ (2 <= 5)%nat) /\
  consumer_thread_loop 3 5 closed_sample_ring 0
    = Some (drained closed_sample_ring, ring_len closed_sample_ring) /\
  consumer_thread_loop 3 5 sample_ring 0 = None.
Proof.
  split; [vm_compute; repeat split; first [reflexivity | discriminate | lia]|].
  split.
  - apply (consumer_thread_stops_iff_closed 3 closed_sample_ring 5);
      first [by_evaluation | lia].
  - apply (consumer_thread_stops_iff_closed 3 sample_ring 5); by_evaluation.
Defined.

Lemma registration_sequence_witness :
  u64 2 /\
  (register_many 2 3 (channel_init 3 2)).1 =
    [(0, mk_producer 0 0); (0, mk_producer 1 1); (-2, mk_producer 0 0)] /\
  producer_count (register_many 2 3 (channel_init 3 2)).2 = 2 /\
  ch_closed (register_many 2 3 (channel_init 3 2)).2 = false.
Proof.
  split; [by_evaluation|].
  destruct (registration_sequence 3 2 3 ltac:(by_evaluation)) as (Hres & Hcount & Hopen & _).
  split; [exact Hres|]. split; [exact Hcount | exact Hopen].
Defined.

Lemma channel_consume_all_sweeps_witness :
  (0 <= producer_count sample_channel <= Z.of_nat (length (rings sample_channel)) /\
   Forall (fun r => u64 (head r) /\ u64 (tail r))
          (take (Z.to_nat (producer_count sample_channel)) (rings sample_channel))) /\
  channel_consume_all 3 sample_channel record_call [] =
    Some (wrap64 (foldl Z.add 0
                    (ring_len <$> take (Z.to_nat (producer_count sample_channel))
                                       (rings sample_channel))),
          invoke record_call []
            (concat (in_flight 3
                       <$> take (Z.to_nat (producer_count sample_channel))
                                (rings sample_channel))),
          set_rings sample_channel
            ((drained <$> take (Z.to_nat (producer_count sample_channel))
                               (rings sample_channel))
               ++ drop (Z.to_nat (producer_count sample_channel))
                       (rings sample_channel))).
Proof.
  assert (0 <= producer_count sample_channel
            <= Z.of_nat (length (rings sample_channel))) as Hcount by by_evaluation.
  assert (Forall (fun r => u64 (head r) /\ u64 (tail r))
            (take (Z.to_nat (producer_count sample_channel)) (rings sample_channel)))
    as Hwf by (repeat constructor; by_evaluation).
  split; [by split|].
  apply (channel_consume_all_sweeps 3 record_call sample_channel [] Hcount Hwf).
Defined.

Lemma channel_consume_all_twice_witness :
  exists n ctx1 ch1,
    channel_consume_all 3 sample_channel record_call [] = Some (n, ctx1, ch1) /\
    channel_consume_all 3 ch1 record_call ctx1 = Some (0, ctx1, ch1).
Proof.
  eexists _, _, _. split; [vm_compute; reflexivity|].
  eapply (channel_consume_all_twice 3 record_call sample_channel []).
  - by_evaluation.
  - repeat constructor; by_evaluation.
  - vm_compute; reflexivity.
Defined.

Lemma bench_batch_exceeds_capacity_witness :
  1 <= 14 <= 14 /\
  bench_run 14 MESSAGES_PER_PRODUCER BATCH_SIZE sample_schedule
            (mk_bench (ring_init 14) 0 0)
    = Some (mk_bench (ring_init 14) 0 0).
Proof.
  split; [lia | apply (bench_batch_exceeds_capacity 14 sample_schedule); lia].
Defined.
